(** * RetroArch NCI client: a shallow embedding of [retroarch_nci.py]

    The client builds one line of text per command, exchanges it over UDP
    and, for [READ_CORE_MEMORY], decodes the reply into an integer.

    Python values are modelled as follows:
    - [str] is a list of Unicode code points ([N]); [bytes] is a list of
      [Byte.byte];
    - [int] is [Z] (Python integers are unbounded), with [|] and [<<] as
      [Z.lor] and [Z.shiftl];
    - [float] is IEEE binary64 ([PrimFloat.float]);
    - a call either returns a value or raises: [outcome];
    - the socket and the clock are an explicit environment, and the socket
      calls performed are recorded in a log threaded through the code.

    The shell of [retroarch_nci_cli.py] is modelled on top of the client:
    one iteration per line read, with what it prints. *)

From Stdlib Require Import ZArith NArith String Ascii Bool Lia List.
From Stdlib.Strings Require Import Byte.
From Stdlib Require Import DecimalString Floats.
From Stdlib Require DecimalPos DecimalZ.
Import ListNotations.

Set Implicit Arguments.

(** ** Python text *)

Definition char := N.
Definition str := list char.

(** A Rocq string literal as Python text (one code point per character). *)
Definition lit (s : string) : str := map N_of_ascii (list_ascii_of_string s).

Definition SPACE : char := 32%N.
Definition NEWLINE : char := 10%N.

(** [Py_UNICODE_ISSPACE]: what [str.split()] and [str.strip()] treat as
    whitespace. *)
Definition isspace (c : char) : bool :=
  (((0x09 <=? c) && (c <=? 0x0D)) || ((0x1C <=? c) && (c <=? 0x20))
   || (c =? 0x85) || (c =? 0xA0) || (c =? 0x1680)
   || ((0x2000 <=? c) && (c <=? 0x200A))
   || (c =? 0x2028) || (c =? 0x2029) || (c =? 0x202F) || (c =? 0x205F)
   || (c =? 0x3000))%N.

(** [str.split()] without arguments: maximal runs of non-whitespace.
    [cur] is the current token, reversed. *)
Fixpoint split_aux (s : str) (cur : str) : list str :=
  match s with
  | [] => match cur with [] => [] | _ => [rev cur] end
  | c :: s' =>
      if isspace c
      then match cur with
           | [] => split_aux s' []
           | _ => rev cur :: split_aux s' []
           end
      else split_aux s' (c :: cur)
  end.

Definition str_split (s : str) : list str := split_aux s [].

Fixpoint lstrip (s : str) : str :=
  match s with
  | c :: s' => if isspace c then lstrip s' else s
  | [] => []
  end.

(** [str.strip()] without arguments. *)
Definition str_strip (s : str) : str := rev (lstrip (rev (lstrip s))).

(** [sep.join(items)]. *)
Fixpoint str_join (sep : str) (items : list str) : str :=
  match items with
  | [] => []
  | [x] => x
  | x :: rest => x ++ sep ++ str_join sep rest
  end.

(** ** Exceptions *)

Inductive exn :=
| OSError
| socket_timeout            (* subclass of OSError *)
| ValueError
| OverflowError
| UnicodeEncodeError        (* subclass of ValueError *)
| KeyboardInterrupt.        (* BaseException, not Exception *)

Definition is_socket_timeout (e : exn) : bool :=
  match e with socket_timeout => true | _ => false end.

(** [isinstance(e, Exception)]. *)
Definition is_Exception (e : exn) : bool :=
  match e with KeyboardInterrupt => false | _ => true end.

(** [isinstance(e, ValueError)]. *)
Definition is_ValueError (e : exn) : bool :=
  match e with ValueError | UnicodeEncodeError => true | _ => false end.

Inductive outcome (A : Type) :=
| Returned (a : A)
| Raised (e : exn).
Arguments Raised {A} e.

(** ** [int(text, 16)] *)

(** The Unicode database's decimal-digit property for code points outside
    ASCII ([Py_UNICODE_TODECIMAL]); it depends on the interpreter's Unicode
    version, so it is a parameter of the model. *)
Class UnicodeDB := { todecimal : char -> option N }.

(** [Py_ISSPACE]: the whitespace [int] skips around the number. *)
Definition c_isspace (c : char) : bool :=
  (((0x09 <=? c) && (c <=? 0x0D)) || (c =? 0x20))%N.

(** [_PyLong_DigitValue] restricted to base 16. *)
Definition hex_digit_value (c : char) : option Z :=
  (if (48 <=? c) && (c <=? 57) then Some (Z.of_N (c - 48))
   else if (97 <=? c) && (c <=? 102) then Some (Z.of_N (c - 87))
   else if (65 <=? c) && (c <=? 70) then Some (Z.of_N (c - 55))
   else None)%N.

Fixpoint skip_c_spaces (s : str) : str :=
  match s with
  | c :: s' => if c_isspace c then skip_c_spaces s' else s
  | [] => []
  end.

(** The digit scan of [long_from_binary_base]: digits with single
    underscores between them.  [prev_us] tells whether the previous
    character was an underscore.  Returns the value and the unread rest, or
    [None] on a doubled or trailing underscore. *)
Fixpoint scan_hex (s : str) (prev_us : bool) (acc : Z) : option (Z * str) :=
  match s with
  | [] => if prev_us then None else Some (acc, [])
  | c :: s' =>
      if (c =? 95)%N
      then if prev_us then None else scan_hex s' true acc
      else match hex_digit_value c with
           | Some d => scan_hex s' false (16 * acc + d)
           | None => if prev_us then None else Some (acc, s)
           end
  end.

(** The sign in front of the number: [(negative, rest)]. *)
Definition read_sign (s : str) : bool * str :=
  match s with
  | c :: r =>
      if (c =? 43)%N then (false, r)
      else if (c =? 45)%N then (true, r)
      else (false, s)
  | [] => (false, s)
  end.

(** The optional [0x] or [0X] in front of the digits, and the one
    underscore allowed after it. *)
Definition skip_prefix16 (s : str) : str :=
  match s with
  | c0 :: c1 :: r =>
      if ((c0 =? 48) && ((c1 =? 120) || (c1 =? 88)))%N
      then match r with
           | c2 :: r' => if (c2 =? 95)%N then r' else r
           | [] => r
           end
      else s
  | _ => s
  end.

Definition starts_with_underscore (s : str) : bool :=
  match s with
  | c :: _ => (c =? 95)%N
  | [] => false
  end.

(** [PyLong_FromString(s, 16)] on the ASCII form of the text.  The scan
    returns a suffix of its input, so equal lengths mean that no digit was
    read. *)
Definition long_from_string16 (s : str) : option Z :=
  let '(negative, s) := read_sign (skip_c_spaces s) in
  let start := skip_prefix16 s in
  if starts_with_underscore start then None
  else
    match scan_hex start false 0 with
    | None => None
    | Some (z, rest) =>
        if (length rest =? length start)%nat then None
        else match skip_c_spaces rest with
             | [] => Some (if negative then - z else z)%Z
             | _ => None
             end
    end.

Section Int.
Context {db : UnicodeDB}.

(** [_PyUnicode_TransformDecimalAndSpaceToASCII] on text that is not pure
    ASCII: Unicode spaces become a space, Unicode decimal digits their
    ASCII digit, and the first other character becomes ['?'], where the
    result ends. *)
Fixpoint transform_decimal_and_space (s : str) : str :=
  match s with
  | [] => []
  | c :: r =>
      if (c <? 127)%N then c :: transform_decimal_and_space r
      else if isspace c then SPACE :: transform_decimal_and_space r
      else match todecimal c with
           | Some d => (48 + d)%N :: transform_decimal_and_space r
           | None => [63%N]
           end
  end.

(** [int(text, 16)]: raises [ValueError] when the text is not a number. *)
Definition int16 (text : str) : outcome Z :=
  let ascii_form :=
    if forallb (fun c => (c <? 128)%N) text then text
    else transform_decimal_and_space text in
  match long_from_string16 ascii_form with
  | Some z => Returned z
  | None => Raised ValueError
  end.

(** ** [read_core_memory], after the exchange *)

(** The loop [for i, b in enumerate(byte_parts): val |= int(b, 16) << (8 * i)],
    entered with index [i] and accumulator [val]. *)
Fixpoint assemble (byte_parts : list str) (i : nat) (val : Z) : outcome Z :=
  match byte_parts with
  | [] => Returned val
  | b :: rest =>
      match int16 b with
      | Raised e => Raised e
      | Returned v =>
          assemble rest (S i) (Z.lor val (Z.shiftl v (8 * Z.of_nat i)))
      end
  end.

(** What [read_core_memory] does with the response [resp] of the exchange
    (from [if resp is None] to the end of the function). *)
Definition read_core_memory_decode (resp : option str) : outcome (option Z) :=
  match resp with
  | None => Returned None
  | Some resp =>
      let parts := str_split resp in
      if (length parts <? 3)%nat then Returned None
      else
        match parts with
        | cmd_name :: addr_str :: byte_parts =>
            if ((length byte_parts =? 1)%nat
                && match byte_parts with
                   | b0 :: _ => if list_eq_dec N.eq_dec b0 (lit "-1") then true else false
                   | [] => false
                   end)%bool
            then Returned None
            else
              match assemble byte_parts 0 0 with
              | Returned val => Returned (Some val)
              | Raised e =>
                  if is_ValueError e then Returned None else Raised e
              end
        | _ => Raised ValueError   (* unpacking needs two items *)
        end
  end.
End Int.

(** The interpreter's table left empty: no decimal digits outside ASCII. *)
Definition ascii_digits_only : UnicodeDB := {| todecimal := fun _ => None |}.

(** ** The command catalog *)

Inductive NCICommand :=
| VERSION
| GET_STATUS
| GET_CONFIG_PARAM
| SHOW_MESG
| SET_SHADER
| READ_CORE_MEMORY
| WRITE_CORE_MEMORY
| LOAD_STATE_SLOT
| PLAY_REPLAY_SLOT
| MENU_TOGGLE
| QUIT
| CLOSE_CONTENT
| RESET
| FAST_FORWARD
| FAST_FORWARD_HOLD
| SLOWMOTION
| SLOWMOTION_HOLD
| REWIND
| PAUSE_TOGGLE
| FRAMEADVANCE
| MUTE
| VOLUME_UP
| VOLUME_DOWN
| LOAD_STATE
| SAVE_STATE
| STATE_SLOT_PLUS
| STATE_SLOT_MINUS
| PLAY_REPLAY
| RECORD_REPLAY
| HALT_REPLAY
| REPLAY_SLOT_PLUS
| REPLAY_SLOT_MINUS
| DISK_EJECT_TOGGLE
| DISK_NEXT
| DISK_PREV
| SHADER_TOGGLE
| SHADER_NEXT
| SHADER_PREV
| CHEAT_TOGGLE
| CHEAT_INDEX_PLUS
| CHEAT_INDEX_MINUS
| SCREENSHOT
| RECORDING_TOGGLE
| STREAMING_TOGGLE
| GRAB_MOUSE_TOGGLE
| GAME_FOCUS_TOGGLE
| FULLSCREEN_TOGGLE
| UI_COMPANION_TOGGLE
| VRR_RUNLOOP_TOGGLE
| RUNAHEAD_TOGGLE
| PREEMPT_TOGGLE
| FPS_TOGGLE
| STATISTICS_TOGGLE
| AI_SERVICE
| NETPLAY_PING_TOGGLE
| NETPLAY_HOST_TOGGLE
| NEPLAY_GAME_WATCH
| NETPLAY_PLAYER_CHAT
| NETPLAY_FADE_CHAT_TOGGLE
| MENU_UP
| MENU_DOWN
| MENU_LEFT
| MENU_RIGHT
| MENU_A
| MENU_B
| OVERLAY_NEXT
| OSK.

(** [command.name]. *)
Definition name (command : NCICommand) : string :=
  match command with
  | VERSION => "VERSION"
  | GET_STATUS => "GET_STATUS"
  | GET_CONFIG_PARAM => "GET_CONFIG_PARAM"
  | SHOW_MESG => "SHOW_MESG"
  | SET_SHADER => "SET_SHADER"
  | READ_CORE_MEMORY => "READ_CORE_MEMORY"
  | WRITE_CORE_MEMORY => "WRITE_CORE_MEMORY"
  | LOAD_STATE_SLOT => "LOAD_STATE_SLOT"
  | PLAY_REPLAY_SLOT => "PLAY_REPLAY_SLOT"
  | MENU_TOGGLE => "MENU_TOGGLE"
  | QUIT => "QUIT"
  | CLOSE_CONTENT => "CLOSE_CONTENT"
  | RESET => "RESET"
  | FAST_FORWARD => "FAST_FORWARD"
  | FAST_FORWARD_HOLD => "FAST_FORWARD_HOLD"
  | SLOWMOTION => "SLOWMOTION"
  | SLOWMOTION_HOLD => "SLOWMOTION_HOLD"
  | REWIND => "REWIND"
  | PAUSE_TOGGLE => "PAUSE_TOGGLE"
  | FRAMEADVANCE => "FRAMEADVANCE"
  | MUTE => "MUTE"
  | VOLUME_UP => "VOLUME_UP"
  | VOLUME_DOWN => "VOLUME_DOWN"
  | LOAD_STATE => "LOAD_STATE"
  | SAVE_STATE => "SAVE_STATE"
  | STATE_SLOT_PLUS => "STATE_SLOT_PLUS"
  | STATE_SLOT_MINUS => "STATE_SLOT_MINUS"
  | PLAY_REPLAY => "PLAY_REPLAY"
  | RECORD_REPLAY => "RECORD_REPLAY"
  | HALT_REPLAY => "HALT_REPLAY"
  | REPLAY_SLOT_PLUS => "REPLAY_SLOT_PLUS"
  | REPLAY_SLOT_MINUS => "REPLAY_SLOT_MINUS"
  | DISK_EJECT_TOGGLE => "DISK_EJECT_TOGGLE"
  | DISK_NEXT => "DISK_NEXT"
  | DISK_PREV => "DISK_PREV"
  | SHADER_TOGGLE => "SHADER_TOGGLE"
  | SHADER_NEXT => "SHADER_NEXT"
  | SHADER_PREV => "SHADER_PREV"
  | CHEAT_TOGGLE => "CHEAT_TOGGLE"
  | CHEAT_INDEX_PLUS => "CHEAT_INDEX_PLUS"
  | CHEAT_INDEX_MINUS => "CHEAT_INDEX_MINUS"
  | SCREENSHOT => "SCREENSHOT"
  | RECORDING_TOGGLE => "RECORDING_TOGGLE"
  | STREAMING_TOGGLE => "STREAMING_TOGGLE"
  | GRAB_MOUSE_TOGGLE => "GRAB_MOUSE_TOGGLE"
  | GAME_FOCUS_TOGGLE => "GAME_FOCUS_TOGGLE"
  | FULLSCREEN_TOGGLE => "FULLSCREEN_TOGGLE"
  | UI_COMPANION_TOGGLE => "UI_COMPANION_TOGGLE"
  | VRR_RUNLOOP_TOGGLE => "VRR_RUNLOOP_TOGGLE"
  | RUNAHEAD_TOGGLE => "RUNAHEAD_TOGGLE"
  | PREEMPT_TOGGLE => "PREEMPT_TOGGLE"
  | FPS_TOGGLE => "FPS_TOGGLE"
  | STATISTICS_TOGGLE => "STATISTICS_TOGGLE"
  | AI_SERVICE => "AI_SERVICE"
  | NETPLAY_PING_TOGGLE => "NETPLAY_PING_TOGGLE"
  | NETPLAY_HOST_TOGGLE => "NETPLAY_HOST_TOGGLE"
  | NEPLAY_GAME_WATCH => "NEPLAY_GAME_WATCH"
  | NETPLAY_PLAYER_CHAT => "NETPLAY_PLAYER_CHAT"
  | NETPLAY_FADE_CHAT_TOGGLE => "NETPLAY_FADE_CHAT_TOGGLE"
  | MENU_UP => "MENU_UP"
  | MENU_DOWN => "MENU_DOWN"
  | MENU_LEFT => "MENU_LEFT"
  | MENU_RIGHT => "MENU_RIGHT"
  | MENU_A => "MENU_A"
  | MENU_B => "MENU_B"
  | OVERLAY_NEXT => "OVERLAY_NEXT"
  | OSK => "OSK"
  end.

(** Every member, in declaration order ([list(NCICommand)]). *)
Definition all_commands : list NCICommand :=
  [VERSION;
   GET_STATUS;
   GET_CONFIG_PARAM;
   SHOW_MESG;
   SET_SHADER;
   READ_CORE_MEMORY;
   WRITE_CORE_MEMORY;
   LOAD_STATE_SLOT;
   PLAY_REPLAY_SLOT;
   MENU_TOGGLE;
   QUIT;
   CLOSE_CONTENT;
   RESET;
   FAST_FORWARD;
   FAST_FORWARD_HOLD;
   SLOWMOTION;
   SLOWMOTION_HOLD;
   REWIND;
   PAUSE_TOGGLE;
   FRAMEADVANCE;
   MUTE;
   VOLUME_UP;
   VOLUME_DOWN;
   LOAD_STATE;
   SAVE_STATE;
   STATE_SLOT_PLUS;
   STATE_SLOT_MINUS;
   PLAY_REPLAY;
   RECORD_REPLAY;
   HALT_REPLAY;
   REPLAY_SLOT_PLUS;
   REPLAY_SLOT_MINUS;
   DISK_EJECT_TOGGLE;
   DISK_NEXT;
   DISK_PREV;
   SHADER_TOGGLE;
   SHADER_NEXT;
   SHADER_PREV;
   CHEAT_TOGGLE;
   CHEAT_INDEX_PLUS;
   CHEAT_INDEX_MINUS;
   SCREENSHOT;
   RECORDING_TOGGLE;
   STREAMING_TOGGLE;
   GRAB_MOUSE_TOGGLE;
   GAME_FOCUS_TOGGLE;
   FULLSCREEN_TOGGLE;
   UI_COMPANION_TOGGLE;
   VRR_RUNLOOP_TOGGLE;
   RUNAHEAD_TOGGLE;
   PREEMPT_TOGGLE;
   FPS_TOGGLE;
   STATISTICS_TOGGLE;
   AI_SERVICE;
   NETPLAY_PING_TOGGLE;
   NETPLAY_HOST_TOGGLE;
   NEPLAY_GAME_WATCH;
   NETPLAY_PLAYER_CHAT;
   NETPLAY_FADE_CHAT_TOGGLE;
   MENU_UP;
   MENU_DOWN;
   MENU_LEFT;
   MENU_RIGHT;
   MENU_A;
   MENU_B;
   OVERLAY_NEXT;
   OSK].

(** ** Number formatting *)

Definition hex_upper_char (d : N) : char :=
  (if d <? 10 then 48 + d else 55 + d)%N.

(** The hexadecimal digits of [n], most significant first; [fuel] bounds
    their number. *)
Fixpoint hex_digits (fuel : nat) (n : N) : str :=
  match fuel with
  | O => []
  | S fuel' =>
      if (n <? 16)%N then [hex_upper_char n]
      else hex_digits fuel' (n / 16) ++ [hex_upper_char (n mod 16)]
  end.

Definition hex_of_N (n : N) : str := hex_digits (S (N.to_nat (N.log2 n))) n.

(** [f"{n:X}"]: uppercase hexadecimal, no prefix, a minus sign when negative. *)
Definition format_X (n : Z) : str :=
  (if (n <? 0)%Z then lit "-" else []) ++ hex_of_N (Z.abs_N n).

(** Left padding with ['0'] up to [width] characters. *)
Definition zero_pad (width : nat) (digits : str) : str :=
  repeat 48%N (width - length digits) ++ digits.

(** [f"{n:02X}"]: as [format_X], zero-filled after the sign to a total
    width of two. *)
Definition format_02X (n : Z) : str :=
  if (n <? 0)%Z then lit "-" ++ zero_pad 1 (hex_of_N (Z.abs_N n))
  else zero_pad 2 (hex_of_N (Z.abs_N n)).

(** [str(n)] for an [int]: decimal. *)
Definition format_d (n : Z) : str := lit (NilZero.string_of_int (Z.to_int n)).

(** ** Encoding and decoding *)

(** [text.encode("ascii")]. *)
Fixpoint str_encode_ascii (text : str) : outcome (list byte) :=
  match text with
  | [] => Returned []
  | c :: rest =>
      match (if (c <? 128)%N then Byte.of_N c else None) with
      | None => Raised UnicodeEncodeError
      | Some b =>
          match str_encode_ascii rest with
          | Returned bs => Returned (b :: bs)
          | Raised e => Raised e
          end
      end
  end.

Definition REPLACEMENT_CHARACTER : char := 0xFFFD%N.

(** [data.decode("ascii", errors="replace")]. *)
Definition bytes_decode_ascii_replace (data : list byte) : str :=
  map (fun b => let n := Byte.to_N b in
                if (n <? 128)%N then n else REPLACEMENT_CHARACTER) data.

(** ** The socket, and code that may raise *)

(** What one transient socket does when it is used. *)
Record SocketEnv := {
  socket_outcome : option exn;              (* [socket.socket(...)] raising *)
  timer_overflow : float -> bool;           (* seconds the platform timer cannot hold *)
  sendto_outcome : option exn;              (* [sock.sendto(...)] raising *)
  recvfrom_outcome : outcome (list byte);   (* the datagram that arrives, or the error *)
  close_outcome : option exn                (* [sock.close()] raising *)
}.

Inductive event :=
| Opened
| TimeoutSet (seconds : float)
| Sent (payload : list byte) (host : str) (port : Z)
| Received (data : list byte)
| Closed.

(** A computation reads the log of socket calls so far, and returns or
    raises together with the extended log. *)
Definition M (A : Type) := list event -> outcome A * list event.

Definition ret {A} (a : A) : M A := fun log => (Returned a, log).
Definition raise {A} (e : exn) : M A := fun log => (Raised e, log).
Definition emit (ev : event) : M unit := fun log => (Returned tt, log ++ [ev]).

Definition bind {A B} (m : M A) (k : A -> M B) : M B :=
  fun log =>
    match m log with
    | (Returned a, log') => k a log'
    | (Raised e, log') => (Raised e, log')
    end.

Definition lift {A} (o : outcome A) : M A := fun log => (o, log).

Definition may_raise (o : option exn) : M unit :=
  match o with
  | Some e => raise e
  | None => ret tt
  end.

Notation "x <- m ;; k" := (bind m (fun x => k))
  (at level 61, m at next level, right associativity).
Notation "m ;; k" := (bind m (fun _ => k))
  (at level 61, right associativity).

(** [try: body  except ...: handler].  [handler e] is [None] when no
    [except] clause matches [e]. *)
Definition try_except {A} (body : M A) (handler : exn -> option (M A)) : M A :=
  fun log =>
    match body log with
    | (Returned a, log') => (Returned a, log')
    | (Raised e, log') =>
        match handler e with
        | Some h => h log'
        | None => (Raised e, log')
        end
    end.

(** [try: body  finally: final].  An exception of [final] replaces the
    result of [body]. *)
Definition try_finally {A} (body : M A) (final : M unit) : M A :=
  fun log =>
    let '(result, log') := body log in
    match final log' with
    | (Returned _, log'') => (result, log'')
    | (Raised e, log'') => (Raised e, log'')
    end.

(** How [settimeout] and [time.sleep] read a number of seconds. *)
Definition check_seconds (overflow : float -> bool) (seconds : float) : option exn :=
  if PrimFloat.is_nan seconds then Some ValueError
  else if overflow seconds then Some OverflowError
  else if (seconds <? 0)%float then Some ValueError
  else None.

Definition socket_socket (env : SocketEnv) : M unit :=
  may_raise (socket_outcome env) ;; emit Opened.

Definition sock_settimeout (env : SocketEnv) (value : float) : M unit :=
  may_raise (check_seconds (timer_overflow env) value) ;; emit (TimeoutSet value).

Definition sock_sendto (env : SocketEnv) (payload : list byte) (host : str) (port : Z)
  : M unit :=
  may_raise (sendto_outcome env) ;; emit (Sent payload host port).

(** A datagram longer than [bufsize] is cut. *)
Definition sock_recvfrom (env : SocketEnv) (bufsize : nat) : M (list byte) :=
  data <- lift (recvfrom_outcome env) ;;
  let data := firstn bufsize data in
  emit (Received data) ;; ret data.

Definition sock_close (env : SocketEnv) : M unit :=
  may_raise (close_outcome env) ;; emit Closed.

(** ** The client *)

Record RetroArchNCI := {
  host : str;
  port : Z;
  timeout : float
}.

Definition _send (env : SocketEnv) (self : RetroArchNCI) (msg : str)
    (expect_response : bool) : M (option str) :=
  socket_socket env ;;
  sock_settimeout env (timeout self) ;;
  try_finally
    (try_except
       (payload <- lift (str_encode_ascii msg) ;;
        sock_sendto env payload (host self) (port self) ;;
        if negb expect_response then ret None
        else
          data <- sock_recvfrom env 4096 ;;
          ret (Some (str_strip (bytes_decode_ascii_replace data))))
       (fun e =>
          if is_socket_timeout e then Some (ret None)
          else if is_Exception e then Some (ret None)
          else None))
    (sock_close env).

Section Commands.
(** The positional arguments are objects of any type [Arg]; [py_str] is
    [str(arg)]. *)
Context {Arg : Type} (py_str : Arg -> str).

(** The text [full] that [cmd] builds. *)
Definition cmd_message (command : NCICommand) (args : list Arg) : str :=
  let cmd_name := lit (name command) in
  match args with
  | [] => cmd_name
  | _ => (cmd_name ++ lit " ") ++ str_join (lit " ") (map py_str args)
  end.

Definition cmd (env : SocketEnv) (self : RetroArchNCI) (command : NCICommand)
    (args : list Arg) (expect_response : bool) : M (option str) :=
  _send env self (cmd_message command args) expect_response.

(** The text that [send_nci_command] builds; [cmd_or_str] is a catalog
    member ([inl]) or any other object ([inr]). *)
Definition send_nci_command_message (cmd_or_str : NCICommand + Arg)
    (args : list Arg) : str :=
  match cmd_or_str with
  | inl command => cmd_message command args
  | inr other =>
      let msg := py_str other in
      match args with
      | [] => msg
      | _ => msg ++ (lit " " ++ str_join (lit " ") (map py_str args))
      end
  end.

Definition send_nci_command (env : SocketEnv) (self : RetroArchNCI)
    (cmd_or_str : NCICommand + Arg) (args : list Arg) (expect_response : bool)
  : M (option str) :=
  match cmd_or_str with
  | inl command => cmd env self command args expect_response
  | inr _ => _send env self (send_nci_command_message cmd_or_str args) expect_response
  end.
End Commands.

(** The objects the callers in the repository pass: text and integers. *)
Inductive pyobj :=
| PyStr (s : str)
| PyInt (n : Z).

Definition pyobj_str (o : pyobj) : str :=
  match o with
  | PyStr s => s
  | PyInt n => format_d n
  end.

(** ** Memory commands *)

(** The command line of [read_core_memory]. *)
Definition read_core_memory_cmd (address size : Z) : str :=
  lit "READ_CORE_MEMORY " ++ format_X address ++ lit " " ++ format_d size.

Definition read_core_memory {db : UnicodeDB} (env : SocketEnv) (self : RetroArchNCI)
    (address size : Z) : M (option Z) :=
  resp <- _send env self (read_core_memory_cmd address size) true ;;
  lift (read_core_memory_decode resp).

(** The command line of [write_core_memory]. *)
Definition write_core_memory_cmd (address : Z) (bytes_list : list Z) : str :=
  let hex_bytes := str_join (lit " ") (map format_02X bytes_list) in
  lit "WRITE_CORE_MEMORY " ++ format_X address ++ lit " " ++ hex_bytes.

Definition write_core_memory (env : SocketEnv) (self : RetroArchNCI)
    (address : Z) (bytes_list : list Z) : M (option str) :=
  _send env self (write_core_memory_cmd address bytes_list) true.

(** ** Waiting for the server *)

(** The clock and the network as [wait_for_ready] meets them: [now k] is
    the [k]-th reading of [time.time()], [net k] the socket of the [k]-th
    exchange. *)
Record World := {
  now : nat -> float;
  net : nat -> SocketEnv;
  sleep_overflow : float -> bool
}.

Definition time_sleep (w : World) (seconds : float) : M unit :=
  may_raise (check_seconds (sleep_overflow w) seconds).

(** The [while] loop of [wait_for_ready] before its [k]-th attempt; [None]
    when [fuel] iterations were not enough. *)
Fixpoint wait_loop (fuel : nat) (w : World) (self : RetroArchNCI)
    (start timeout_sec poll_interval : float) (k : nat) (log : list event)
  : option (outcome bool * list event) :=
  match fuel with
  | O => None
  | S fuel' =>
      if (now w (S k) - start <? timeout_sec)%float
      then
        match send_nci_command pyobj_str (net w k) self (inl VERSION) [] true log with
        | (Raised e, log') => Some (Raised e, log')
        | (Returned (Some _), log') => Some (Returned true, log')
        | (Returned None, log') =>
            match time_sleep w poll_interval log' with
            | (Raised e, log'') => Some (Raised e, log'')
            | (Returned _, log'') =>
                wait_loop fuel' w self start timeout_sec poll_interval (S k) log''
            end
        end
      else Some (Returned false, log)
  end.

Definition wait_for_ready (fuel : nat) (w : World) (self : RetroArchNCI)
    (timeout_sec poll_interval : float) (log : list event)
  : option (outcome bool * list event) :=
  let start := now w 0 in
  wait_loop fuel w self start timeout_sec poll_interval 0 log.

(** ** Little-endian assembly, as specified *)

(** Item [i] of the byte values contributes [b_i << (8 * i)]; the
    contributions are combined with bitwise or.  [le_assembly_from i]
    numbers the items from [i]. *)
Fixpoint le_assembly_from (i : nat) (byte_values : list Z) : Z :=
  match byte_values with
  | [] => 0
  | b :: rest => Z.lor (Z.shiftl b (8 * Z.of_nat i)) (le_assembly_from (S i) rest)
  end.

Definition le_assembly (byte_values : list Z) : Z := le_assembly_from 0 byte_values.

(** The number whose base-256 digits, least significant first, are the
    byte values. *)
Fixpoint le_value (byte_values : list Z) : Z :=
  match byte_values with
  | [] => 0
  | b :: rest => b + 256 * le_value rest
  end.

(** The byte tokens of a response: what follows the command name and the
    echoed address. *)
Definition byte_tokens (text : str) : list str := skipn 2 (str_split text).

(** A response is malformed when it has fewer than three tokens or a byte
    token that [int(_, 16)] rejects. *)
Definition malformed {db : UnicodeDB} (text : str) : Prop :=
  (length (str_split text) < 3)%nat
  \/ Exists (fun b => forall v, int16 b <> Returned v) (byte_tokens text).

(** ** Vocabulary for command lines *)

(** An uppercase hexadecimal digit: [0]-[9] or [A]-[F]. *)
Definition is_upper_hex (c : char) : bool :=
  (((48 <=? c) && (c <=? 57)) || ((65 <=? c) && (c <=? 70)))%N.

(** The value of a digit string read in base 16, continuing from [acc]. *)
Definition hex_value_from (acc : Z) (digits : str) : Z :=
  fold_left
    (fun a c => (16 * a + match hex_digit_value c with Some d => d | None => 0 end)%Z)
    digits acc.

(** [token] writes [n] in uppercase hexadecimal without prefix: it is made
    of the digits [0]-[9] and [A]-[F] only, and [int(token, 16)] is [n]. *)
Definition uppercase_hex_for {db : UnicodeDB} (token : str) (n : Z) : Prop :=
  token <> [] /\ forallb is_upper_hex token = true /\ int16 token = Returned n.

(** [" a1 a2 ... aN"]: every item preceded by exactly one space. *)
Fixpoint after_spaces (items : list str) : str :=
  match items with
  | [] => []
  | a :: rest => SPACE :: a ++ after_spaces rest
  end.

Definition no_space (t : str) : bool := forallb (fun c => negb (isspace c)) t.

(** A token: not empty, no whitespace inside. *)
Definition clean_token (t : str) : Prop := t <> [] /\ no_space t = true.

(** What a command line starts with: the catalog name, or the text of
    the object given in its place. *)
Definition message_head {Arg : Type} (py_str : Arg -> str)
    (cmd_or_str : NCICommand + Arg) : str :=
  match cmd_or_str with
  | inl command => lit (name command)
  | inr other => py_str other
  end.

(** ** Concrete clients and sockets *)

(** The default client. *)
Definition local_client : RetroArchNCI :=
  {| host := lit "127.0.0.1"; port := 55355; timeout := 1%float |}.

(** A socket that works, with no reply arriving before the timeout. *)
Definition quiet_server : SocketEnv :=
  {| socket_outcome := None;
     timer_overflow := fun _ => false;
     sendto_outcome := None;
     recvfrom_outcome := Raised socket_timeout;
     close_outcome := None |}.

(** A process that cannot open one more socket: [socket.socket] raises
    [OSError]. *)
Definition no_socket : SocketEnv :=
  {| socket_outcome := Some OSError;
     timer_overflow := fun _ => false;
     sendto_outcome := None;
     recvfrom_outcome := Raised socket_timeout;
     close_outcome := None |}.

(** [RetroArchNCI(timeout=-1.0)]. *)
Definition negative_timeout_client : RetroArchNCI :=
  {| host := lit "127.0.0.1"; port := 55355; timeout := (-1)%float |}.

(** A socket that works, with the datagram [data] arriving in time. *)
Definition answering_server (data : list byte) : SocketEnv :=
  {| socket_outcome := None;
     timer_overflow := fun _ => false;
     sendto_outcome := None;
     recvfrom_outcome := Returned data;
     close_outcome := None |}.

(** A server that starts late: the first exchange times out, and from the
    second on the server answers; the clock reads 100.0, 100.25, 101.5 and
    then 120.0 seconds. *)
Definition late_server : World :=
  {| now := fun k => match k with
                     | 0 => 100%float
                     | 1 => 100.25%float
                     | 2 => 101.5%float
                     | _ => 120%float
                     end;
     net := fun k => match k with
                     | 0 => quiet_server
                     | _ => answering_server ["1"%byte; "."%byte; "9"%byte; x0a]
                     end;
     sleep_overflow := fun _ => false |}.

(** ** Vocabulary for [wait_for_ready] *)

(** The loop test before attempt [k]: [time.time() - start < timeout_sec]. *)
Definition within_budget (w : World) (timeout_sec : float) (k : nat) : bool :=
  (now w (S k) - now w 0 <? timeout_sec)%float.

(** The outcome of attempt [k]: what [send_nci_command(NCICommand.VERSION)]
    gives on the [k]-th socket. *)
Definition poll (w : World) (self : RetroArchNCI) (k : nat) : outcome (option str) :=
  fst (send_nci_command pyobj_str (net w k) self (inl VERSION) [] true []).

(** ** Vocabulary for the socket log *)

(** [env] with another fate for the reply. *)
Definition with_reply (env : SocketEnv) (reply : outcome (list byte)) : SocketEnv :=
  {| socket_outcome := socket_outcome env;
     timer_overflow := timer_overflow env;
     sendto_outcome := sendto_outcome env;
     recvfrom_outcome := reply;
     close_outcome := close_outcome env |}.

(** Datagrams going out or coming in. *)
Definition is_traffic (ev : event) : bool :=
  match ev with
  | Sent _ _ _ | Received _ => true
  | _ => false
  end.

Definition is_received (ev : event) : bool :=
  match ev with
  | Received _ => true
  | _ => false
  end.

Definition is_sent (ev : event) : bool :=
  match ev with
  | Sent _ _ _ => true
  | _ => false
  end.

(** Text as [decode("ascii", errors="replace")] can produce it. *)
Definition decoded_char (c : char) : bool :=
  ((c <? 128) || (c =? REPLACEMENT_CHARACTER))%N.

(** No whitespace in front. *)
Definition starts_clean (s : str) : bool :=
  match s with
  | [] => true
  | c :: _ => negb (isspace c)
  end.

(** A socket that works, on which the wait for the reply is interrupted
    from the keyboard. *)
Definition interrupted_server : SocketEnv :=
  {| socket_outcome := None;
     timer_overflow := fun _ => false;
     sendto_outcome := None;
     recvfrom_outcome := Raised KeyboardInterrupt;
     close_outcome := None |}.

(** ** Letter case *)

(** [str.upper()] on an ASCII character: [a]-[z] become [A]-[Z]. *)
Definition ascii_upper_char (c : char) : char :=
  (if (97 <=? c) && (c <=? 122) then c - 32 else c)%N.

(** [str.lower()] on an ASCII character: [A]-[Z] become [a]-[z]. *)
Definition ascii_lower_char (c : char) : char :=
  (if (65 <=? c) && (c <=? 90) then c + 32 else c)%N.

(** ** Vocabulary for the wire *)

(** Text that [encode("ascii")] accepts. *)
Definition is_ascii (s : str) : bool := forallb (fun c => (c <? 128)%N) s.




(** ** More vocabulary for [wait_for_ready] *)

(** The bytes of [VERSION]. *)
Definition version_payload : list byte :=
  ["V"%byte; "E"%byte; "R"%byte; "S"%byte; "I"%byte; "O"%byte; "N"%byte].

(** A socket on which a datagram can be sent: it opens, takes the client's
    timeout, sends and closes without error. *)
Definition socket_works (env : SocketEnv) (self : RetroArchNCI) : Prop :=
  socket_outcome env = None
  /\ check_seconds (timer_overflow env) (timeout self) = None
  /\ sendto_outcome env = None
  /\ close_outcome env = None.

Definition is_closed (ev : event) : bool :=
  match ev with
  | Closed => true
  | _ => false
  end.

(** ** Parameterized commands *)

Definition get_config_param (env : SocketEnv) (self : RetroArchNCI) (param : str)
  : M (option str) :=
  cmd pyobj_str env self GET_CONFIG_PARAM [PyStr param] true.


Definition set_shader (env : SocketEnv) (self : RetroArchNCI) (shader_path : str)
  : M (option str) :=
  cmd pyobj_str env self SET_SHADER [PyStr shader_path] true.



Definition netplay_player_chat (env : SocketEnv) (self : RetroArchNCI) (message : str)
  : M (option str) :=
  cmd pyobj_str env self NETPLAY_PLAYER_CHAT [PyStr message] true.

(** ** Single-word helpers *)

(** The methods of the form [def m(self): return self.cmd(NCICommand.C)],
    as pairs of the method's name and the member it passes. *)
Definition single_word_helpers : list (string * NCICommand) :=
  [("version"%string, VERSION);
   ("get_status"%string, GET_STATUS);
   ("menu_toggle"%string, MENU_TOGGLE);
   ("quit"%string, QUIT);
   ("close_content"%string, CLOSE_CONTENT);
   ("reset"%string, RESET);
   ("fast_forward"%string, FAST_FORWARD);
   ("fast_forward_hold"%string, FAST_FORWARD_HOLD);
   ("slowmotion"%string, SLOWMOTION);
   ("slowmotion_hold"%string, SLOWMOTION_HOLD);
   ("rewind"%string, REWIND);
   ("pause_toggle"%string, PAUSE_TOGGLE);
   ("frameadvance"%string, FRAMEADVANCE);
   ("mute"%string, MUTE);
   ("volume_up"%string, VOLUME_UP);
   ("volume_down"%string, VOLUME_DOWN);
   ("load_state"%string, LOAD_STATE);
   ("save_state"%string, SAVE_STATE);
   ("state_slot_plus"%string, STATE_SLOT_PLUS);
   ("state_slot_minus"%string, STATE_SLOT_MINUS);
   ("play_replay"%string, PLAY_REPLAY);
   ("record_replay"%string, RECORD_REPLAY);
   ("halt_replay"%string, HALT_REPLAY);
   ("replay_slot_plus"%string, REPLAY_SLOT_PLUS);
   ("replay_slot_minus"%string, REPLAY_SLOT_MINUS);
   ("disk_eject_toggle"%string, DISK_EJECT_TOGGLE);
   ("disk_next"%string, DISK_NEXT);
   ("disk_prev"%string, DISK_PREV);
   ("shader_toggle"%string, SHADER_TOGGLE);
   ("shader_next"%string, SHADER_NEXT);
   ("shader_prev"%string, SHADER_PREV);
   ("cheat_toggle"%string, CHEAT_TOGGLE);
   ("cheat_index_plus"%string, CHEAT_INDEX_PLUS);
   ("cheat_index_minus"%string, CHEAT_INDEX_MINUS);
   ("screenshot"%string, SCREENSHOT);
   ("recording_toggle"%string, RECORDING_TOGGLE);
   ("streaming_toggle"%string, STREAMING_TOGGLE);
   ("grab_mouse_toggle"%string, GRAB_MOUSE_TOGGLE);
   ("game_focus_toggle"%string, GAME_FOCUS_TOGGLE);
   ("fullscreen_toggle"%string, FULLSCREEN_TOGGLE);
   ("ui_companion_toggle"%string, UI_COMPANION_TOGGLE);
   ("vrr_runloop_toggle"%string, VRR_RUNLOOP_TOGGLE);
   ("runahead_toggle"%string, RUNAHEAD_TOGGLE);
   ("preempt_toggle"%string, PREEMPT_TOGGLE);
   ("fps_toggle"%string, FPS_TOGGLE);
   ("statistics_toggle"%string, STATISTICS_TOGGLE);
   ("ai_service"%string, AI_SERVICE);
   ("netplay_ping_toggle"%string, NETPLAY_PING_TOGGLE);
   ("netplay_host_toggle"%string, NETPLAY_HOST_TOGGLE);
   ("neplay_game_watch"%string, NEPLAY_GAME_WATCH);
   ("netplay_fade_chat_toggle"%string, NETPLAY_FADE_CHAT_TOGGLE);
   ("menu_up"%string, MENU_UP);
   ("menu_down"%string, MENU_DOWN);
   ("menu_left"%string, MENU_LEFT);
   ("menu_right"%string, MENU_RIGHT);
   ("menu_a"%string, MENU_A);
   ("menu_b"%string, MENU_B);
   ("overlay_next"%string, OVERLAY_NEXT);
   ("osk"%string, OSK)].

(** Calling the helper named [method]; [None] when the class has no such
    helper. *)
Definition call_helper (method : string) (env : SocketEnv) (self : RetroArchNCI)
  : option (M (option str)) :=
  match find (fun entry => String.eqb (fst entry) method) single_word_helpers with
  | Some (_, command) => Some (cmd pyobj_str env self command [] true)
  | None => None
  end.

(** The members that a method with parameters passes to [cmd] or names in
    its command line. *)
Definition parameterized_members : list NCICommand :=
  [GET_CONFIG_PARAM; SHOW_MESG; SET_SHADER; READ_CORE_MEMORY; WRITE_CORE_MEMORY;
   LOAD_STATE_SLOT; PLAY_REPLAY_SLOT; NETPLAY_PLAYER_CHAT].

Definition NCICommand_eqb (a b : NCICommand) : bool :=
  String.eqb (name a) (name b).

(** ** The catalog by name *)

Definition str_eqb (a b : str) : bool :=
  if list_eq_dec N.eq_dec a b then true else false.

(** [NCICommand[cmd_name]]; [None] stands for [KeyError]. *)
Definition lookup_command (cmd_name : str) : option NCICommand :=
  find (fun command => str_eqb (lit (name command)) cmd_name) all_commands.

(** ** The command-line shell ([retroarch_nci_cli.py]) *)

(** [str.lower()] and [str.upper()] on text that is not pure ASCII follow
    the interpreter's Unicode tables; they are parameters of the model. *)
Class UnicodeCase := {
  unicode_lower : str -> str;
  unicode_upper : str -> str
}.

(** ASCII only: the tables are never consulted. *)
Definition ascii_case_only : UnicodeCase :=
  {| unicode_lower := fun s => s; unicode_upper := fun s => s |}.

(** What [list_commands] prints, one item per [print]. *)
Definition list_commands : list str :=
  lit "Available NCI commands:"
    :: map (fun command => lit "- " ++ lit (name command)) all_commands.

(** How an iteration of the shell can fail: with an exception of the
    client, or on [parts[0]]. *)
Inductive shell_error :=
| ClientError (e : exn)
| IndexError.

(** What an iteration leaves: whether the loop goes on, and what it
    printed. *)
Record shell_step := {
  keep_going : bool;
  printed : list str
}.

(** The end of an iteration: [print] the response or the notice. *)
Definition shell_report (result : outcome (option str) * list event)
  : (shell_error + shell_step) * list event :=
  match result with
  | (Raised e, log) => (inl (ClientError e), log)
  | (Returned None, log) =>
      (inr {| keep_going := true; printed := [lit "[No response / timeout]"] |}, log)
  | (Returned (Some resp), log) =>
      (inr {| keep_going := true; printed := [resp] |}, log)
  end.

Section Shell.
Context {uc : UnicodeCase}.

Definition str_lower (s : str) : str :=
  if is_ascii s then map ascii_lower_char s else unicode_lower s.

Definition str_upper (s : str) : str :=
  if is_ascii s then map ascii_upper_char s else unicode_upper s.

(** [cmd_input.lower() in ("!exit", "!quit")]. *)
Definition is_quit (cmd_input : str) : bool :=
  str_eqb (str_lower cmd_input) (lit "!exit")
  || str_eqb (str_lower cmd_input) (lit "!quit").

(** [cmd_input.lower() in ("help", "?")]. *)
Definition is_help (cmd_input : str) : bool :=
  str_eqb (str_lower cmd_input) (lit "help")
  || str_eqb (str_lower cmd_input) (lit "?").

(** One iteration of the loop of [main] on the line [raw] that [input]
    returned.  The arguments are text, so [str] leaves them as they are. *)
Definition shell_line (env : SocketEnv) (nci : RetroArchNCI) (raw : str)
    (log : list event) : (shell_error + shell_step) * list event :=
  let cmd_input := str_strip raw in
  match cmd_input with
  | [] => (inr {| keep_going := true; printed := [] |}, log)
  | _ =>
      if is_quit cmd_input
      then (inr {| keep_going := false; printed := [] |}, log)
      else if is_help cmd_input
      then (inr {| keep_going := true; printed := list_commands |}, log)
      else
        let parts := str_split cmd_input in
        match parts with
        | [] => (inl IndexError, log)
        | first :: args_list =>
            let cmd_name := str_upper first in
            shell_report
              match lookup_command cmd_name with
              | Some cmd_enum =>
                  cmd (fun s : str => s) env nci cmd_enum args_list true log
              | None =>
                  send_nci_command (fun s : str => s) env nci (inr cmd_name)
                    args_list true log
              end
        end
  end.

(** The loop of [main] on the lines [inputs], after which [input] raises
    [EOFError]; line [i] meets the socket [net w i].  Returns the error
    that ended the shell, if any, what was printed, and the log. *)
Fixpoint shell_loop (w : World) (nci : RetroArchNCI) (inputs : list str) (i : nat)
    (out : list str) (log : list event)
  : option shell_error * list str * list event :=
  match inputs with
  | [] => (None, out ++ [NEWLINE :: lit "Exiting..."], log)
  | raw :: rest =>
      match shell_line (net w i) nci raw log with
      | (inl err, log') => (Some err, out, log')
      | (inr step, log') =>
          if keep_going step
          then shell_loop w nci rest (S i) (out ++ printed step) log'
          else (None, out ++ printed step, log')
      end
  end.

(** [main] once the options are parsed: the client with the default
    timeout, the two lines of greeting, the loop. *)
Definition main (w : World) (host : str) (port : Z) (inputs : list str)
  : option shell_error * list str * list event :=
  let nci := {| host := host; port := port; timeout := 1%float |} in
  shell_loop w nci inputs 0
    [lit "Connected to RetroArch NCI at " ++ host ++ lit ":" ++ format_d port;
     lit "Type 'help' to list commands, 'exit' to quit."]
    [].
End Shell.

(** * Checks on concrete inputs *)

Example decode_030201 :
  @read_core_memory_decode ascii_digits_only
    (Some (lit "READ_CORE_MEMORY 100 01 02 03")) = Returned (Some 0x030201%Z).
Proof. vm_compute. reflexivity. Qed.

Example cmd_show_mesg :
  cmd_message pyobj_str SHOW_MESG [PyStr (lit "Hello"); PyInt 2000]
  = lit "SHOW_MESG Hello 2000".
Proof. reflexivity. Qed.

Example write_10_01_FF :
  write_core_memory_cmd 0x10 [1; 255]%Z = lit "WRITE_CORE_MEMORY 10 01 FF".
Proof. reflexivity. Qed.

Example decode_fail :
  @read_core_memory_decode ascii_digits_only
    (Some (lit "READ_CORE_MEMORY 100 -1")) = Returned None.
Proof. vm_compute. reflexivity. Qed.

Example decode_neg :
  @read_core_memory_decode ascii_digits_only
    (Some (lit "READ_CORE_MEMORY 100 -1 00")) = Returned (Some (-1)%Z).
Proof. vm_compute. reflexivity. Qed.

(** * Decoding the reply to [READ_CORE_MEMORY] *)

Section DecodeFacts.
Context {db : UnicodeDB}.
Local Open Scope Z_scope.

Lemma assemble_values (byte_parts : list str) (byte_values : list Z) :
  Forall2 (fun b v => int16 b = Returned v) byte_parts byte_values ->
  forall i val,
    assemble byte_parts i val = Returned (Z.lor val (le_assembly_from i byte_values)).
Proof.
  induction 1 as [|b v bs vs Hb _ IH]; intros i val; simpl.
  - now rewrite Z.lor_0_r.
  - rewrite Hb, IH. now rewrite Z.lor_assoc.
Qed.

Lemma assemble_rejects (byte_parts : list str) :
  Exists (fun b => forall v, int16 b <> Returned v) byte_parts ->
  forall i val, assemble byte_parts i val = Raised ValueError.
Proof.
  induction 1 as [b bs Hb | b bs _ IH]; intros i val; simpl.
  - unfold int16 in *. destruct (long_from_string16 _); [now elim (Hb z)|reflexivity].
  - unfold int16 in *. destruct (long_from_string16 _); [apply IH|reflexivity].
Qed.

(** [int] raises nothing but [ValueError], and so does the loop. *)
Lemma assemble_raises_ValueError (byte_parts : list str) :
  forall i val e, assemble byte_parts i val = Raised e -> e = ValueError.
Proof.
  induction byte_parts as [|b bs IH]; intros i val e; simpl; [discriminate|].
  unfold int16. destruct (long_from_string16 _); [apply IH|congruence].
Qed.

(** The failure guard, as a proposition. *)
Lemma failure_guard (byte_parts : list str) :
  ((length byte_parts =? 1)%nat
   && match byte_parts with
      | b0 :: _ => if list_eq_dec N.eq_dec b0 (lit "-1") then true else false
      | [] => false
      end)%bool = true
  <-> byte_parts = [lit "-1"].
Proof.
  destruct byte_parts as [|b0 [|b1 bs]]; simpl; split; try discriminate.
  - destruct (list_eq_dec N.eq_dec b0 (lit "-1")); [now subst|discriminate].
  - intros [= ->]. now destruct (list_eq_dec N.eq_dec (lit "-1") (lit "-1")).
Qed.

(** The decoder on a reply of three tokens or more. *)
Lemma decode_tokens (resp cmd_name addr_str b0 : str) (rest : list str) :
  str_split resp = cmd_name :: addr_str :: b0 :: rest ->
  read_core_memory_decode (Some resp) =
    if list_eq_dec (list_eq_dec N.eq_dec) (b0 :: rest) [lit "-1"]
    then Returned None
    else match assemble (b0 :: rest) 0 0 with
         | Returned val => Returned (Some val)
         | Raised e => if is_ValueError e then Returned None else Raised e
         end.
Proof.
  intros Hs. unfold read_core_memory_decode. rewrite Hs.
  change (length (cmd_name :: addr_str :: b0 :: rest) <? 3)%nat with false.
  cbv iota.
  pose proof (failure_guard (b0 :: rest)) as G.
  destruct (_ && _)%bool;
    destruct (list_eq_dec (list_eq_dec N.eq_dec) (b0 :: rest) [lit "-1"]) as [E|E];
    try reflexivity.
  - elim E. now apply G.
  - apply G in E. discriminate.
Qed.

Lemma land_byte_shift (v x : Z) :
  0 <= v < 256 -> Z.land v (Z.shiftl x 8) = 0.
Proof.
  intros Hv. apply Z.bits_inj'. intros n Hn.
  rewrite Z.land_spec, Z.bits_0.
  destruct (Z.ltb_spec n 8).
  - rewrite Z.shiftl_spec_low by lia. apply andb_false_r.
  - destruct (Z.eq_dec v 0) as [->|]; [now rewrite Z.bits_0|].
    assert (Z.log2 v < 8) by (apply Z.log2_lt_pow2; [lia|simpl; lia]).
    rewrite (Z.bits_above_log2 v n); [reflexivity|lia|lia].
Qed.

Lemma lor_byte_shift (v x : Z) :
  0 <= v < 256 -> Z.lor v (Z.shiftl x 8) = v + 256 * x.
Proof.
  intros Hv.
  rewrite <- Z.lxor_lor, <- Z.add_nocarry_lxor by now apply land_byte_shift.
  rewrite Z.shiftl_mul_pow2 by lia. change (2 ^ 8) with 256. lia.
Qed.

(** With byte values in range, or-ing the contributions adds them up. *)
Lemma le_assembly_from_value (byte_values : list Z) :
  Forall (fun v => 0 <= v < 256) byte_values ->
  forall i, le_assembly_from i byte_values
            = Z.shiftl (le_value byte_values) (8 * Z.of_nat i).
Proof.
  induction 1 as [|v vs Hv _ IH]; intros i; simpl.
  - now rewrite Z.shiftl_0_l.
  - rewrite IH.
    replace (8 * Z.of_nat (S i)) with (8 + 8 * Z.of_nat i) by lia.
    rewrite <- Z.shiftl_shiftl by lia.
    rewrite <- Z.shiftl_lor. f_equal.
    now apply lor_byte_shift.
Qed.

Lemma le_assembly_value (byte_values : list Z) :
  Forall (fun v => 0 <= v < 256) byte_values ->
  le_assembly byte_values = le_value byte_values.
Proof.
  intros H. unfold le_assembly.
  rewrite le_assembly_from_value by assumption. apply Z.shiftl_0_r.
Qed.

(** A reply with byte tokens, all of them numbers, that is not the
    failure reply. *)
Lemma decode_assembles
    (resp cmd_name addr_str : str) (byte_parts : list str) (byte_values : list Z) :
  str_split resp = cmd_name :: addr_str :: byte_parts ->
  byte_parts <> [] ->
  byte_parts <> [lit "-1"] ->
  Forall2 (fun b v => int16 b = Returned v) byte_parts byte_values ->
  read_core_memory_decode (Some resp) = Returned (Some (le_assembly byte_values)).
Proof.
  intros Hs Hne Hok Hv.
  destruct byte_parts as [|b0 rest]; [contradiction|].
  rewrite (decode_tokens _ Hs).
  destruct (list_eq_dec _ _ _) as [E|_]; [contradiction|].
  rewrite (assemble_values Hv). reflexivity.
Qed.

(** C1.  A success reply -- at least three whitespace tokens, every byte
    token accepted by [int(_, 16)], and not the failure reply whose sole
    byte token is [-1] -- decodes to the little-endian assembly of the
    byte values: token [i] contributes [byte_i << (8 * i)].  When the
    values are bytes (0..255) this is the number with these base-256
    digits, least significant first. *)
Theorem read_core_memory_little_endian
    (resp cmd_name addr_str : str) (byte_parts : list str) (byte_values : list Z) :
  str_split resp = cmd_name :: addr_str :: byte_parts ->
  byte_parts <> [] ->
  byte_parts <> [lit "-1"] ->
  Forall2 (fun b v => int16 b = Returned v) byte_parts byte_values ->
  read_core_memory_decode (Some resp) = Returned (Some (le_assembly byte_values))
  /\ (Forall (fun v => 0 <= v < 256) byte_values ->
      le_assembly byte_values = le_value byte_values).
Proof.
  intros Hs Hne Hok Hv. split; [|apply le_assembly_value].
  eapply decode_assembles; eassumption.
Qed.

(** C2.  A reply whose sole byte token is literally [-1] decodes to "no
    value", not to the integer -1. *)
Theorem read_core_memory_failure_reply (resp cmd_name addr_str : str) :
  str_split resp = [cmd_name; addr_str; lit "-1"] ->
  read_core_memory_decode (Some resp) = Returned None
  /\ read_core_memory_decode (Some resp) <> Returned (Some (-1)).
Proof.
  intros Hs. rewrite (decode_tokens _ Hs).
  destruct (list_eq_dec _ _ _) as [_|E]; [|now elim E].
  split; [reflexivity|discriminate].
Qed.

(** The decoder returns on every response. *)
Lemma decode_returns (resp : option str) :
  exists result, read_core_memory_decode resp = Returned result.
Proof.
  destruct resp as [text|]; [|now exists None].
  destruct (str_split text) as [|c [|a [|b0 rest]]] eqn:Hs;
    try (exists None; unfold read_core_memory_decode; now rewrite Hs).
  rewrite (decode_tokens _ Hs).
  destruct (list_eq_dec _ _ _); [now exists None|].
  destruct (assemble (b0 :: rest) 0 0) as [val|e] eqn:Ha; [now eexists|].
  apply assemble_raises_ValueError in Ha. subst e. now exists None.
Qed.

(** C3.  Whatever the response -- absent, or any text -- the decoder
    returns and never raises; an absent response and a malformed one
    (fewer than three tokens, or a byte token that is not hexadecimal)
    give "no value". *)
Theorem read_core_memory_decode_total (resp : option str) :
  (exists result, read_core_memory_decode resp = Returned result)
  /\ (resp = None -> read_core_memory_decode resp = Returned None)
  /\ (forall text, resp = Some text -> malformed text ->
      read_core_memory_decode resp = Returned None).
Proof.
  split; [|split].
  - apply decode_returns.
  - now intros ->.
  - intros text -> [Hshort|Hbad].
    + unfold read_core_memory_decode.
      apply Nat.ltb_lt in Hshort. now rewrite Hshort.
    + unfold byte_tokens in Hbad.
      destruct (str_split text) as [|c [|a [|b0 rest]]] eqn:Hs;
        try (unfold read_core_memory_decode; now rewrite Hs).
      rewrite (decode_tokens _ Hs). simpl in Hbad.
      destruct (list_eq_dec _ _ _); [reflexivity|].
      now rewrite (assemble_rejects Hbad).
Qed.

(** C9, as amended.  The failure guard looks at a sole byte token only.
    In a reply with two byte tokens or more, one of them [-1], and all of
    them accepted by [int(_, 16)], the token [-1] is read as the integer
    -1 and the decoder returns an integer: the little-endian assembly of
    the values. *)
Theorem read_core_memory_minus_one_among_bytes
    (resp cmd_name addr_str : str) (byte_parts : list str) (byte_values : list Z) :
  str_split resp = cmd_name :: addr_str :: byte_parts ->
  (2 <= length byte_parts)%nat ->
  In (lit "-1") byte_parts ->
  Forall2 (fun b v => int16 b = Returned v) byte_parts byte_values ->
  int16 (lit "-1") = Returned (-1)
  /\ In (-1) byte_values
  /\ read_core_memory_decode (Some resp) = Returned (Some (le_assembly byte_values)).
Proof.
  intros Hs Hlen Hin Hv.
  assert (Hm : int16 (lit "-1") = Returned (-1)) by reflexivity.
  split; [exact Hm|]. split.
  - clear Hs Hlen. induction Hv as [|b v bs vs Hb _ IH]; [contradiction|].
    destruct Hin as [->|Hin]; [left; congruence|right; auto].
  - eapply decode_assembles; try eassumption.
    + intros ->. simpl in Hlen. lia.
    + intros ->. simpl in Hlen. lia.
Qed.
End DecodeFacts.

(** The synthetic reply [READ_CORE_MEMORY 100 01 02 03] decodes to
    [0x030201]. *)
Lemma read_core_memory_little_endian_witness :
  @read_core_memory_decode ascii_digits_only
    (Some (lit "READ_CORE_MEMORY 100 01 02 03")) = Returned (Some 0x030201%Z).
Proof.
  refine (proj1 (@read_core_memory_little_endian ascii_digits_only
                   (lit "READ_CORE_MEMORY 100 01 02 03")
                   (lit "READ_CORE_MEMORY") (lit "100")
                   [lit "01"; lit "02"; lit "03"] [1; 2; 3]%Z _ _ _ _)).
  - reflexivity.
  - discriminate.
  - discriminate.
  - repeat constructor.
Defined.

(** The failure reply [READ_CORE_MEMORY 100 -1] decodes to "no value". *)
Lemma read_core_memory_failure_reply_witness :
  @read_core_memory_decode ascii_digits_only
    (Some (lit "READ_CORE_MEMORY 100 -1")) = Returned None.
Proof.
  refine (proj1 (@read_core_memory_failure_reply ascii_digits_only
                   (lit "READ_CORE_MEMORY 100 -1")
                   (lit "READ_CORE_MEMORY") (lit "100") _)).
  reflexivity.
Defined.

(** A reply with a token that is not hexadecimal decodes to "no value". *)
Lemma read_core_memory_decode_total_witness :
  @read_core_memory_decode ascii_digits_only
    (Some (lit "READ_CORE_MEMORY 100 0G")) = Returned None.
Proof.
  refine (proj2 (proj2 (@read_core_memory_decode_total ascii_digits_only
                          (Some (lit "READ_CORE_MEMORY 100 0G"))))
                _ eq_refl _).
  right. apply Exists_cons_hd. intros v. discriminate.
Defined.

(** The reply [READ_CORE_MEMORY 100 -1 00] decodes to the integer -1. *)
Lemma read_core_memory_minus_one_among_bytes_witness :
  @read_core_memory_decode ascii_digits_only
    (Some (lit "READ_CORE_MEMORY 100 -1 00")) = Returned (Some (-1)%Z).
Proof.
  refine (proj2 (proj2 (@read_core_memory_minus_one_among_bytes ascii_digits_only
                          (lit "READ_CORE_MEMORY 100 -1 00")
                          (lit "READ_CORE_MEMORY") (lit "100")
                          [lit "-1"; lit "00"] [-1; 0]%Z _ _ _ _))).
  - reflexivity.
  - simpl. lia.
  - left. reflexivity.
  - repeat constructor.
Defined.

(** C9, as stated, fails: the reply [READ_CORE_MEMORY 100 -1 zz] has two
    byte tokens, one of them [-1], and decodes to "no value", not to an
    integer. *)
Lemma read_core_memory_minus_one_with_unreadable_byte :
  let resp := lit "READ_CORE_MEMORY 100 -1 zz" in
  (2 <= length (byte_tokens resp))%nat
  /\ In (lit "-1") (byte_tokens resp)
  /\ @read_core_memory_decode ascii_digits_only (Some resp) = Returned None
  /\ ~ (exists z : Z,
          @read_core_memory_decode ascii_digits_only (Some resp) = Returned (Some z)).
Proof.
  cbv zeta. repeat split.
  - vm_compute. lia.
  - left. reflexivity.
  - intros [z Hz]. vm_compute in Hz. discriminate.
Qed.

(** * Splitting and joining *)

Section SplitFacts.
Lemma split_aux_token (t : str) :
  no_space t = true ->
  forall s cur, split_aux (t ++ s) cur = split_aux s (rev t ++ cur).
Proof.
  induction t as [|c t IH]; intros Ht s cur; [reflexivity|].
  simpl in Ht. apply andb_true_iff in Ht as [Hc Ht].
  apply negb_true_iff in Hc. simpl. rewrite Hc, IH by assumption.
  now rewrite <- app_assoc.
Qed.

Lemma split_aux_spaces (ws : str) :
  forallb isspace ws = true -> split_aux ws [] = [].
Proof.
  induction ws as [|c ws IH]; intros H; [reflexivity|].
  simpl in H. apply andb_true_iff in H as [Hc H]. simpl. now rewrite Hc, IH.
Qed.

Lemma split_aux_tail (ws cur : str) :
  cur <> [] -> forallb isspace ws = true -> split_aux ws cur = [rev cur].
Proof.
  intros Hcur H. destruct ws as [|c ws]; simpl.
  - destruct cur; [contradiction|reflexivity].
  - simpl in H. apply andb_true_iff in H as [Hc H]. rewrite Hc.
    destruct cur; [contradiction|]. now rewrite split_aux_spaces.
Qed.

(** Splitting undoes joining with single spaces, whatever whitespace
    follows. *)
Lemma split_join (items : list str) (ws : str) :
  Forall clean_token items ->
  forallb isspace ws = true ->
  str_split (str_join [SPACE] items ++ ws) = items.
Proof.
  intros Hitems Hws. unfold str_split.
  induction Hitems as [|t rest [Hne Ht] Hrest IH]; [now apply split_aux_spaces|].
  assert (Hrev : rev t ++ [] <> []).
  { rewrite app_nil_r. intros E. apply Hne.
    rewrite <- (rev_involutive t), E. reflexivity. }
  destruct rest as [|t' rest].
  - simpl. rewrite split_aux_token by assumption.
    rewrite split_aux_tail by assumption.
    now rewrite app_nil_r, rev_involutive.
  - change (str_join [SPACE] (t :: t' :: rest))
      with (t ++ [SPACE] ++ str_join [SPACE] (t' :: rest)).
    rewrite <- !app_assoc.
    rewrite split_aux_token by assumption.
    change ([SPACE] ++ str_join [SPACE] (t' :: rest) ++ ws)
      with (SPACE :: (str_join [SPACE] (t' :: rest) ++ ws)).
    cbn [split_aux]. change (isspace SPACE) with true. cbv iota.
    destruct (rev t ++ []) as [|c cur] eqn:E; [contradiction|].
    rewrite <- E, app_nil_r, rev_involutive. f_equal. exact IH.
Qed.

Lemma join_after_spaces (head : str) (items : list str) :
  str_join [SPACE] (head :: items) = head ++ after_spaces items.
Proof.
  revert head. induction items as [|a rest IH]; intros head.
  - simpl. now rewrite app_nil_r.
  - change (str_join [SPACE] (head :: a :: rest))
      with (head ++ [SPACE] ++ str_join [SPACE] (a :: rest)).
    now rewrite IH.
Qed.

Lemma in_join (c : char) (items : list str) :
  c <> SPACE -> In c (str_join [SPACE] items) -> exists t, In t items /\ In c t.
Proof.
  intros Hc. induction items as [|t rest IH]; [contradiction|].
  destruct rest as [|t' rest].
  - simpl. intros H. exists t. auto.
  - change (str_join [SPACE] (t :: t' :: rest))
      with (t ++ [SPACE] ++ str_join [SPACE] (t' :: rest)).
    rewrite !in_app_iff. intros [H|[[H|[]]|H]].
    + exists t. split; [now left|assumption].
    + congruence.
    + destruct (IH H) as (u & Hu & Hcu). exists u. split; [now right|assumption].
Qed.
End SplitFacts.

(** * Number formatting *)

Section FormatFacts.
Local Open Scope N_scope.

Ltac ncases :=
  repeat match goal with
    | |- context [N.leb ?a ?b] => destruct (N.leb_spec a b)
    | |- context [N.ltb ?a ?b] => destruct (N.ltb_spec a b)
    | |- context [N.eqb ?a ?b] => destruct (N.eqb_spec a b)
    | H : context [N.leb ?a ?b] |- _ => destruct (N.leb_spec a b)
    | H : context [N.ltb ?a ?b] |- _ => destruct (N.ltb_spec a b)
    | H : context [N.eqb ?a ?b] |- _ => destruct (N.eqb_spec a b)
    end;
  cbn [andb orb negb] in *; try congruence; try lia; try reflexivity.

Lemma hex_upper_char_is_upper (d : N) :
  d < 16 -> is_upper_hex (hex_upper_char d) = true.
Proof. intros H. unfold is_upper_hex, hex_upper_char. ncases. Qed.

Lemma hex_upper_char_value (d : N) :
  d < 16 -> hex_digit_value (hex_upper_char d) = Some (Z.of_N d).
Proof.
  intros H. unfold hex_digit_value, hex_upper_char.
  ncases; f_equal; lia.
Qed.

Lemma is_upper_hex_value (c : char) :
  is_upper_hex c = true -> exists d, hex_digit_value c = Some d.
Proof.
  unfold is_upper_hex, hex_digit_value. intros H. ncases; eauto.
Qed.

Lemma hex_digits_upper (fuel : nat) :
  forall n, forallb is_upper_hex (hex_digits fuel n) = true.
Proof.
  induction fuel as [|fuel IH]; intros n; simpl; [reflexivity|].
  destruct (N.ltb_spec n 16).
  - simpl. now rewrite hex_upper_char_is_upper.
  - rewrite forallb_app, IH. simpl.
    rewrite hex_upper_char_is_upper; [reflexivity|].
    apply N.mod_lt. lia.
Qed.

Lemma hex_digits_nonempty (fuel : nat) (n : N) : hex_digits (S fuel) n <> [].
Proof.
  simpl. destruct (n <? 16); [discriminate|].
  intros E. apply app_eq_nil in E as [_ E]. discriminate.
Qed.

Lemma hex_value_from_snoc (acc : Z) (digits : str) (d : N) :
  d < 16 ->
  hex_value_from acc (digits ++ [hex_upper_char d])
  = (16 * hex_value_from acc digits + Z.of_N d)%Z.
Proof.
  intros H. unfold hex_value_from. rewrite fold_left_app. simpl.
  now rewrite hex_upper_char_value.
Qed.

Lemma hex_digits_value (fuel : nat) :
  forall n, n < 16 ^ N.of_nat fuel ->
            hex_value_from 0 (hex_digits fuel n) = Z.of_N n.
Proof.
  induction fuel as [|fuel IH]; intros n Hn.
  - simpl in Hn. assert (n = 0) by lia. subst. reflexivity.
  - simpl hex_digits. destruct (N.ltb_spec n 16) as [Hs|Hs].
    + unfold hex_value_from. simpl. rewrite hex_upper_char_value by assumption. lia.
    + rewrite hex_value_from_snoc by (apply N.mod_lt; lia).
      rewrite IH.
      * rewrite (N.div_mod n 16) at 3 by lia. lia.
      * apply N.Div0.div_lt_upper_bound.
        rewrite Nat2N.inj_succ, N.pow_succ_r' in Hn. exact Hn.
Qed.

Lemma hex_fuel_enough (n : N) : n < 16 ^ N.of_nat (S (N.to_nat (N.log2 n))).
Proof.
  rewrite Nat2N.inj_succ, N2Nat.id.
  destruct (N.eq_dec n 0) as [->|Hn]; [reflexivity|].
  apply N.lt_le_trans with (2 ^ N.succ (N.log2 n)).
  - apply N.log2_spec. lia.
  - apply N.pow_le_mono_l. lia.
Qed.

Lemma hex_of_N_value (n : N) : hex_value_from 0 (hex_of_N n) = Z.of_N n.
Proof. apply hex_digits_value, hex_fuel_enough. Qed.

Lemma hex_of_N_upper (n : N) : forallb is_upper_hex (hex_of_N n) = true.
Proof. apply hex_digits_upper. Qed.

Lemma hex_of_N_nonempty (n : N) : hex_of_N n <> [].
Proof. apply hex_digits_nonempty. Qed.

(** The digit scan reads a string of uppercase digits to its end. *)
Lemma scan_upper_hex (s : str) :
  forallb is_upper_hex s = true ->
  forall acc, scan_hex s false acc = Some (hex_value_from acc s, []).
Proof.
  induction s as [|c s IH]; intros Hs acc; [reflexivity|].
  simpl in Hs. apply andb_true_iff in Hs as [Hc Hs]. simpl.
  destruct (is_upper_hex_value _ Hc) as [d Hd].
  assert ((c =? 95) = false) as ->
    by (unfold is_upper_hex in Hc; ncases).
  rewrite Hd. now rewrite IH.
Qed.

(** [int(_, 16)] reads a string of uppercase digits as its value. *)
Lemma int16_upper_hex {db : UnicodeDB} (s : str) :
  s <> [] -> forallb is_upper_hex s = true ->
  int16 s = Returned (hex_value_from 0 s).
Proof.
  intros Hne Hs. unfold int16.
  assert (Hascii : forallb (fun c => c <? 128) s = true).
  { rewrite forallb_forall in *. intros c Hc. specialize (Hs c Hc).
    unfold is_upper_hex in Hs. ncases. }
  rewrite Hascii. clear Hascii.
  destruct s as [|c0 s]; [contradiction|].
  pose proof Hs as Hall. simpl in Hs. apply andb_true_iff in Hs as [Hc0 Hs].
  unfold long_from_string16.
  assert (Hskip : skip_c_spaces (c0 :: s) = c0 :: s).
  { simpl. unfold c_isspace, is_upper_hex in *. ncases. }
  rewrite Hskip.
  assert (Hsign : read_sign (c0 :: s) = (false, c0 :: s)).
  { unfold read_sign, is_upper_hex in *. ncases. }
  rewrite Hsign.
  assert (Hpre : skip_prefix16 (c0 :: s) = c0 :: s).
  { unfold skip_prefix16. destruct s as [|c1 s]; [reflexivity|].
    simpl in Hs. apply andb_true_iff in Hs as [Hc1 _].
    unfold is_upper_hex in Hc1. ncases. }
  rewrite Hpre.
  assert (Hus : starts_with_underscore (c0 :: s) = false).
  { unfold starts_with_underscore, is_upper_hex in *. ncases. }
  rewrite Hus, (scan_upper_hex _ Hall). reflexivity.
Qed.

Lemma format_X_nonneg (n : Z) : (0 <= n)%Z -> format_X n = hex_of_N (Z.to_N n).
Proof.
  intros H. unfold format_X.
  destruct (Z.ltb_spec n 0); [lia|]. simpl.
  f_equal. destruct n; try reflexivity. lia.
Qed.

Lemma format_X_upper_hex {db : UnicodeDB} (n : Z) :
  (0 <= n)%Z -> uppercase_hex_for (format_X n) n.
Proof.
  intros H. rewrite format_X_nonneg by assumption.
  split; [apply hex_of_N_nonempty|]. split; [apply hex_of_N_upper|].
  rewrite int16_upper_hex by (apply hex_of_N_nonempty || apply hex_of_N_upper).
  rewrite hex_of_N_value. f_equal. lia.
Qed.

(** A byte is written as its two hexadecimal digits. *)
Lemma format_02X_byte (b : Z) :
  (0 <= b < 256)%Z ->
  format_02X b = [hex_upper_char (Z.to_N b / 16); hex_upper_char (Z.to_N b mod 16)].
Proof.
  intros H. unfold format_02X.
  destruct (Z.ltb_spec b 0); [lia|].
  replace (Z.abs_N b) with (Z.to_N b) by (destruct b; try reflexivity; lia).
  set (n := Z.to_N b). assert (Hn : n < 256) by (unfold n; lia).
  unfold hex_of_N.
  destruct (N.ltb_spec n 16) as [Hs|Hs].
  - simpl. apply N.ltb_lt in Hs as Hs'. rewrite Hs'. simpl.
    rewrite N.div_small, N.mod_small by assumption. reflexivity.
  - assert (4 <= N.log2 n).
    { change 4 with (N.log2 16). now apply N.log2_le_mono. }
    destruct (N.to_nat (N.log2 n)) as [|fuel] eqn:E; [lia|].
    simpl. apply N.ltb_ge in Hs as Hs'. rewrite Hs'.
    assert (Hq : n / 16 < 16) by (apply N.Div0.div_lt_upper_bound; lia).
    apply N.ltb_lt in Hq. rewrite Hq. reflexivity.
Qed.

Lemma format_02X_upper_hex {db : UnicodeDB} (b : Z) :
  (0 <= b < 256)%Z ->
  length (format_02X b) = 2%nat /\ uppercase_hex_for (format_02X b) b.
Proof.
  intros H. rewrite format_02X_byte by assumption.
  set (n := Z.to_N b).
  assert (Hq : n / 16 < 16) by (apply N.Div0.div_lt_upper_bound; lia).
  assert (Hr : n mod 16 < 16) by (apply N.mod_lt; lia).
  assert (Hu : forallb is_upper_hex
                 [hex_upper_char (n / 16); hex_upper_char (n mod 16)] = true).
  { simpl. now rewrite !hex_upper_char_is_upper. }
  split; [reflexivity|]. split; [discriminate|]. split; [exact Hu|].
  rewrite int16_upper_hex by (discriminate || exact Hu).
  unfold hex_value_from. cbn [fold_left].
  rewrite !hex_upper_char_value by assumption.
  f_equal.
  assert (E : Z.of_N n = b) by (unfold n; lia).
  pose proof (N.div_mod n 16 ltac:(lia)) as D.
  apply (f_equal Z.of_N) in D. rewrite N2Z.inj_add, N2Z.inj_mul in D.
  change (Z.of_N 16) with 16%Z in D. lia.
Qed.

(** Printable ASCII above the space is not whitespace. *)
Lemma isspace_printable (c : char) : 33 <= c < 127 -> isspace c = false.
Proof.
  intros H. unfold isspace.
  repeat (apply orb_false_intro);
    first [ apply N.eqb_neq; lia
          | apply andb_false_iff; left; apply N.leb_gt; lia
          | apply andb_false_iff; right; apply N.leb_gt; lia ].
Qed.

Lemma upper_hex_no_space (t : str) :
  forallb is_upper_hex t = true -> no_space t = true.
Proof.
  unfold no_space. rewrite !forallb_forall. intros H c Hc.
  specialize (H c Hc). rewrite isspace_printable; [reflexivity|].
  unfold is_upper_hex in H. ncases.
Qed.

(** Whatever the integer, [format_X] writes a token. *)
Lemma format_X_clean (n : Z) : clean_token (format_X n).
Proof.
  unfold format_X, clean_token, no_space. split.
  - intros E. apply app_eq_nil in E as [_ E]. now apply hex_of_N_nonempty in E.
  - rewrite forallb_app. apply andb_true_iff. split.
    + destruct (n <? 0)%Z; reflexivity.
    + apply upper_hex_no_space, hex_of_N_upper.
Qed.
End FormatFacts.

(** * Command lines *)

Section CommandFacts.
Context {Arg : Type} (py_str : Arg -> str).

Lemma name_clean (command : NCICommand) : clean_token (lit (name command)).
Proof. split; destruct command; solve [discriminate | reflexivity]. Qed.

Lemma cmd_message_join (command : NCICommand) (args : list Arg) :
  cmd_message py_str command args
  = str_join [SPACE] (lit (name command) :: map py_str args).
Proof.
  unfold cmd_message. destruct args as [|a args]; [reflexivity|].
  rewrite join_after_spaces, <- app_assoc. f_equal.
  change (lit " ") with [SPACE].
  change ([SPACE] ++ str_join [SPACE] (map py_str (a :: args)))
    with (SPACE :: str_join [SPACE] (py_str a :: map py_str args)).
  now rewrite join_after_spaces.
Qed.

Lemma send_nci_command_message_join (cmd_or_str : NCICommand + Arg) (args : list Arg) :
  send_nci_command_message py_str cmd_or_str args
  = str_join [SPACE] (message_head py_str cmd_or_str :: map py_str args).
Proof.
  destruct cmd_or_str as [command|other]; [apply cmd_message_join|].
  unfold send_nci_command_message, message_head.
  destruct args as [|a args]; [reflexivity|].
  rewrite join_after_spaces. f_equal.
  change (lit " ") with [SPACE].
  change ([SPACE] ++ str_join [SPACE] (map py_str (a :: args)))
    with (SPACE :: str_join [SPACE] (py_str a :: map py_str args)).
  now rewrite join_after_spaces.
Qed.

(** C5.  Without arguments [cmd] sends the opcode's name and nothing
    else -- the name holds no whitespace, so there is no trailing space.
    With arguments it sends [NAME a1 a2 ... aN]: the name, then each
    argument's [str] text preceded by exactly one space. *)
Theorem cmd_message_format (command : NCICommand) :
  cmd_message py_str command [] = lit (name command)
  /\ no_space (lit (name command)) = true
  /\ (forall args,
        cmd_message py_str command args
        = lit (name command) ++ after_spaces (map py_str args))
  /\ (forall env self args expect_response,
        cmd py_str env self command args expect_response
        = _send env self (lit (name command) ++ after_spaces (map py_str args))
            expect_response).
Proof.
  assert (H : forall args, cmd_message py_str command args
                           = lit (name command) ++ after_spaces (map py_str args)).
  { intros args. now rewrite cmd_message_join, join_after_spaces. }
  split; [reflexivity|]. split; [apply name_clean|]. split; [exact H|].
  intros env self args e. unfold cmd. now rewrite H.
Qed.

(** C8, as amended.  The command line of [cmd] and of [send_nci_command]
    is the name (or the text given in its place) and the arguments' texts
    joined by single spaces.  It holds no newline when none of these
    texts does, and when each of them is a token -- not empty, free of
    whitespace -- splitting the line gives these tokens back. *)
Theorem command_message_single_spaces
    (cmd_or_str : NCICommand + Arg) (args : list Arg) :
  (forall command, cmd_or_str = inl command ->
     send_nci_command_message py_str cmd_or_str args
     = cmd_message py_str command args)
  /\ send_nci_command_message py_str cmd_or_str args
     = str_join [SPACE] (message_head py_str cmd_or_str :: map py_str args)
  /\ (Forall (fun t => ~ In NEWLINE t)
        (message_head py_str cmd_or_str :: map py_str args) ->
      ~ In NEWLINE (send_nci_command_message py_str cmd_or_str args))
  /\ (Forall clean_token (message_head py_str cmd_or_str :: map py_str args) ->
      str_split (send_nci_command_message py_str cmd_or_str args)
      = message_head py_str cmd_or_str :: map py_str args).
Proof.
  split; [now intros command ->|].
  split; [apply send_nci_command_message_join|]. split.
  - intros Hitems Hin. rewrite send_nci_command_message_join in Hin.
    apply in_join in Hin as (t & Ht & Hnl); [|discriminate].
    rewrite Forall_forall in Hitems. exact (Hitems t Ht Hnl).
  - intros Hitems. rewrite send_nci_command_message_join.
    rewrite <- (app_nil_r (str_join _ _)). now apply split_join.
Qed.
End CommandFacts.

Section MemoryCommandFacts.
Context {db : UnicodeDB}.
Local Open Scope Z_scope.

Lemma write_core_memory_cmd_spaces (address : Z) (bytes_list : list Z) :
  bytes_list <> [] ->
  write_core_memory_cmd address bytes_list
  = lit "WRITE_CORE_MEMORY"
      ++ after_spaces (format_X address :: map format_02X bytes_list).
Proof.
  intros Hne. unfold write_core_memory_cmd.
  change (lit "WRITE_CORE_MEMORY ") with (lit "WRITE_CORE_MEMORY" ++ [SPACE]).
  change (lit " ") with [SPACE].
  destruct bytes_list as [|b bs]; [contradiction|].
  change (map format_02X (b :: bs)) with (format_02X b :: map format_02X bs).
  rewrite join_after_spaces. cbn [after_spaces].
  rewrite <- !app_assoc. reflexivity.
Qed.

(** C4.  For an address that is not negative and a non-empty list of
    bytes (0..255), [write_core_memory] sends [WRITE_CORE_MEMORY], the
    address in uppercase hexadecimal without prefix, and each byte as
    exactly two uppercase hexadecimal digits, every item after the first
    preceded by one space. *)
Theorem write_core_memory_message
    (env : SocketEnv) (self : RetroArchNCI) (address : Z) (bytes_list : list Z) :
  0 <= address ->
  bytes_list <> [] ->
  Forall (fun b => 0 <= b < 256) bytes_list ->
  write_core_memory_cmd address bytes_list
  = lit "WRITE_CORE_MEMORY"
      ++ after_spaces (format_X address :: map format_02X bytes_list)
  /\ uppercase_hex_for (format_X address) address
  /\ Forall (fun b => length (format_02X b) = 2%nat
                      /\ uppercase_hex_for (format_02X b) b) bytes_list
  /\ str_split (write_core_memory_cmd address bytes_list)
     = lit "WRITE_CORE_MEMORY" :: format_X address :: map format_02X bytes_list
  /\ write_core_memory env self address bytes_list
     = _send env self
         (lit "WRITE_CORE_MEMORY"
            ++ after_spaces (format_X address :: map format_02X bytes_list))
         true.
Proof.
  intros Ha Hne Hb.
  pose proof (write_core_memory_cmd_spaces address Hne) as Hmsg.
  assert (Hbytes : Forall (fun b => length (format_02X b) = 2%nat
                                    /\ uppercase_hex_for (format_02X b) b) bytes_list).
  { eapply Forall_impl; [|exact Hb]. intros b. apply format_02X_upper_hex. }
  split; [exact Hmsg|]. split; [now apply format_X_upper_hex|].
  split; [exact Hbytes|]. split.
  - rewrite Hmsg, <- join_after_spaces, <- (app_nil_r (str_join _ _)).
    apply split_join; [|reflexivity].
    constructor; [split; [discriminate|reflexivity]|].
    constructor; [apply format_X_clean|].
    apply Forall_map. eapply Forall_impl; [|exact Hbytes].
    intros b [_ (Hn & Hu & _)]. split; [exact Hn|now apply upper_hex_no_space].
  - unfold write_core_memory. now rewrite Hmsg.
Qed.

(** C10.  With no bytes, [write_core_memory] sends [WRITE_CORE_MEMORY],
    a space, the address in uppercase hexadecimal and a trailing space:
    a line of two tokens, not rejected and not treated apart. *)
Theorem write_core_memory_no_bytes
    (env : SocketEnv) (self : RetroArchNCI) (address : Z) :
  write_core_memory_cmd address []
  = lit "WRITE_CORE_MEMORY" ++ [SPACE] ++ format_X address ++ [SPACE]
  /\ last (write_core_memory_cmd address []) NEWLINE = SPACE
  /\ str_split (write_core_memory_cmd address [])
     = [lit "WRITE_CORE_MEMORY"; format_X address]
  /\ write_core_memory env self address []
     = _send env self
         (lit "WRITE_CORE_MEMORY" ++ [SPACE] ++ format_X address ++ [SPACE]) true
  /\ (0 <= address -> uppercase_hex_for (format_X address) address).
Proof.
  assert (Hmsg : write_core_memory_cmd address []
                 = lit "WRITE_CORE_MEMORY" ++ [SPACE] ++ format_X address ++ [SPACE]).
  { unfold write_core_memory_cmd. cbn [map str_join].
    change (lit "WRITE_CORE_MEMORY ") with (lit "WRITE_CORE_MEMORY" ++ [SPACE]).
    change (lit " ") with [SPACE].
    now rewrite <- !app_assoc, app_nil_r. }
  split; [exact Hmsg|]. split; [|split; [|split]].
  - rewrite Hmsg, !app_assoc. apply last_last.
  - rewrite Hmsg.
    change (lit "WRITE_CORE_MEMORY" ++ [SPACE] ++ format_X address ++ [SPACE])
      with (str_join [SPACE] [lit "WRITE_CORE_MEMORY"; format_X address ++ [SPACE]]).
    replace (str_join [SPACE] [lit "WRITE_CORE_MEMORY"; format_X address ++ [SPACE]])
      with (str_join [SPACE] [lit "WRITE_CORE_MEMORY"; format_X address] ++ [SPACE])
      by (cbn [str_join]; now rewrite <- !app_assoc).
    apply split_join; [|reflexivity].
    constructor; [split; [discriminate|reflexivity]|].
    constructor; [apply format_X_clean|constructor].
  - unfold write_core_memory. now rewrite Hmsg.
  - apply format_X_upper_hex.
Qed.
End MemoryCommandFacts.

(** The line for address [0x10] and the bytes 1 and 255. *)
Lemma write_core_memory_message_witness :
  write_core_memory_cmd 0x10 [1; 255]%Z = lit "WRITE_CORE_MEMORY 10 01 FF".
Proof.
  refine (proj1 (@write_core_memory_message ascii_digits_only
                   quiet_server local_client 0x10%Z [1; 255]%Z _ _ _)).
  - lia.
  - discriminate.
  - repeat constructor; lia.
Defined.

(** The line for address [0x10] and no bytes ends in a space. *)
Lemma write_core_memory_no_bytes_witness :
  write_core_memory_cmd 0x10 [] = lit "WRITE_CORE_MEMORY 10 "
  /\ uppercase_hex_for (db := ascii_digits_only) (lit "10") 0x10.
Proof.
  pose proof (@write_core_memory_no_bytes ascii_digits_only
                quiet_server local_client 0x10%Z) as (H1 & _ & _ & _ & H5).
  split; [exact H1|]. apply H5. lia.
Defined.

(** C8, as stated, fails: a newline in an argument reaches the command
    line of [cmd], here [cmd(NCICommand.SHOW_MESG, "Hello\nWorld")]. *)
Lemma cmd_message_with_newline :
  In NEWLINE
    (cmd_message pyobj_str SHOW_MESG [PyStr (lit "Hello" ++ [NEWLINE] ++ lit "World")])
  /\ In NEWLINE
    (send_nci_command_message pyobj_str (inl SHOW_MESG)
       [PyStr (lit "Hello" ++ [NEWLINE] ++ lit "World")]).
Proof. split; vm_compute; tauto. Qed.

(** The tokens of [cmd(NCICommand.SHOW_MESG, "Hello", 2000)]. *)
Lemma command_message_single_spaces_witness :
  str_split (cmd_message pyobj_str SHOW_MESG [PyStr (lit "Hello"); PyInt 2000])
  = [lit "SHOW_MESG"; lit "Hello"; lit "2000"]
  /\ ~ In NEWLINE (cmd_message pyobj_str SHOW_MESG [PyStr (lit "Hello"); PyInt 2000]).
Proof.
  pose proof (command_message_single_spaces pyobj_str (inl SHOW_MESG)
                [PyStr (lit "Hello"); PyInt 2000]) as (_ & _ & Hnl & Hsplit).
  split.
  - apply Hsplit. repeat constructor; discriminate.
  - apply Hnl. repeat constructor; vm_compute; intuition discriminate.
Defined.

(** * The exchange *)

Section SendFacts.
Variables (env : SocketEnv) (self : RetroArchNCI).

Ltac run :=
  unfold _send, socket_socket, sock_settimeout, sock_sendto, sock_recvfrom,
    sock_close, try_finally, try_except, bind, may_raise, emit, lift, ret, raise.

(** Encoding fails in one way only. *)
Lemma str_encode_ascii_raises (text : str) (e : exn) :
  str_encode_ascii text = Raised e -> e = UnicodeEncodeError.
Proof.
  induction text as [|c text IH]; simpl; [discriminate|].
  destruct (if (c <? 128)%N then Byte.of_N c else None); [|congruence].
  destruct (str_encode_ascii text); [discriminate|].
  intros [= <-]. now apply IH.
Qed.

(** Whether [_send] returns or raises, and what, does not depend on the
    socket calls made before. *)
Lemma _send_outcome_any_log (msg : str) (expect_response : bool) (log : list event) :
  fst (_send env self msg expect_response log)
  = fst (_send env self msg expect_response []).
Proof.
  run.
  destruct (socket_outcome env); [reflexivity|].
  destruct (check_seconds _ _); [reflexivity|].
  destruct (str_encode_ascii msg) as [payload|e]; cbn [fst snd].
  - destruct (sendto_outcome env) as [e|].
    + destruct (is_socket_timeout e), (is_Exception e), (close_outcome env);
        reflexivity.
    + destruct expect_response; cbn [negb].
      * destruct (recvfrom_outcome env) as [data|e].
        -- destruct (close_outcome env); reflexivity.
        -- destruct (is_socket_timeout e), (is_Exception e), (close_outcome env);
             reflexivity.
      * destruct (close_outcome env); reflexivity.
  - destruct (is_socket_timeout e), (is_Exception e), (close_outcome env);
      reflexivity.
Qed.

(** On a socket that could be opened, configured and closed, [_send]
    absorbs every [Exception] of the exchange: it returns, with the reply
    decoded and stripped when there is one, with [None] otherwise, and
    the socket is closed last. *)
Lemma _send_on_open_socket (msg : str) (expect_response : bool) (log : list event) :
  socket_outcome env = None ->
  check_seconds (timer_overflow env) (timeout self) = None ->
  close_outcome env = None ->
  (forall e, sendto_outcome env = Some e -> is_Exception e = true) ->
  (forall e, recvfrom_outcome env = Raised e -> is_Exception e = true) ->
  exists log',
    _send env self msg expect_response log
    = (Returned
         match str_encode_ascii msg, sendto_outcome env,
               expect_response, recvfrom_outcome env with
         | Returned _, None, true, Returned data =>
             Some (str_strip (bytes_decode_ascii_replace (firstn 4096 data)))
         | _, _, _, _ => None
         end,
       log' ++ [Closed]).
Proof.
  intros Hopen Htime Hclose Hsend Hrecv. run.
  rewrite Hopen, Htime, Hclose.
  destruct (str_encode_ascii msg) as [payload|e] eqn:Ee; cbn [fst snd].
  - destruct (sendto_outcome env) as [e|] eqn:Es.
    + rewrite (Hsend e eq_refl).
      destruct (is_socket_timeout e); eexists; reflexivity.
    + destruct expect_response; cbn [negb].
      * destruct (recvfrom_outcome env) as [data|e] eqn:Er.
        -- eexists; reflexivity.
        -- rewrite (Hrecv e eq_refl).
           destruct (is_socket_timeout e); eexists; reflexivity.
      * eexists; reflexivity.
  - apply str_encode_ascii_raises in Ee. subst e. eexists; reflexivity.
Qed.

(** What reaches the wire: the ASCII bytes of the message, sent to the
    client's host and port. *)
Lemma _send_emits (msg : str) (payload : list byte)
    (expect_response : bool) (log : list event) :
  socket_outcome env = None ->
  check_seconds (timer_overflow env) (timeout self) = None ->
  sendto_outcome env = None ->
  str_encode_ascii msg = Returned payload ->
  In (Sent payload (host self) (port self))
     (snd (_send env self msg expect_response log)).
Proof.
  intros Hopen Htime Hsend Henc. run.
  rewrite Hopen, Htime, Henc, Hsend. cbn [fst snd].
  destruct expect_response; cbn [negb].
  - destruct (recvfrom_outcome env) as [data|e].
    + destruct (close_outcome env); cbn [snd]; rewrite !in_app_iff; simpl; tauto.
    + destruct (is_socket_timeout e), (is_Exception e), (close_outcome env);
        cbn [snd]; rewrite !in_app_iff; simpl; tauto.
  - destruct (close_outcome env); cbn [snd]; rewrite !in_app_iff; simpl; tauto.
Qed.
End SendFacts.

(** On such a socket [read_core_memory] returns as well: an integer or
    [None]. *)
Lemma read_core_memory_returns {db : UnicodeDB}
    (env : SocketEnv) (self : RetroArchNCI) (address size : Z) (log : list event) :
  socket_outcome env = None ->
  check_seconds (timer_overflow env) (timeout self) = None ->
  close_outcome env = None ->
  (forall e, sendto_outcome env = Some e -> is_Exception e = true) ->
  (forall e, recvfrom_outcome env = Raised e -> is_Exception e = true) ->
  exists result log',
    read_core_memory env self address size log = (Returned result, log').
Proof.
  intros Hopen Htime Hclose Hsend Hrecv.
  edestruct _send_on_open_socket
    with (msg := read_core_memory_cmd address size) (expect_response := true)
         (log := log) as [log' E]; try eassumption.
  unfold read_core_memory, bind, lift. rewrite E.
  match goal with
  | |- context [read_core_memory_decode ?r] =>
      destruct (decode_returns r) as [result Hr]; rewrite Hr
  end.
  now eexists _, _.
Qed.

(** C6, the code against the claim.  [socket.socket] and [settimeout] are
    called before the [try] statement, so what they raise leaves [_send]:
    [OSError] when no socket can be opened, [ValueError] when the client's
    timeout is negative. *)
Theorem send_raises_outside_try (msg : str) (expect_response : bool) (log : list event) :
  _send no_socket local_client msg expect_response log = (Raised OSError, log)
  /\ _send quiet_server negative_timeout_client msg expect_response log
     = (Raised ValueError, log ++ [Opened]).
Proof. split; reflexivity. Qed.

(** * Waiting for the server *)

Section WaitFacts.
Variables (w : World) (self : RetroArchNCI).
Variables (timeout_sec poll_interval : float).

Lemma poll_any_log (k : nat) (log : list event) :
  fst (send_nci_command pyobj_str (net w k) self (inl VERSION) [] true log)
  = poll w self k.
Proof. unfold poll, send_nci_command, cmd. apply _send_outcome_any_log. Qed.

(** [m] attempts within the budget that find no response leave the loop
    where it was, [m] attempts later. *)
Lemma wait_loop_absent (m : nat) :
  forall k fuel log,
    (forall j, k <= j < k + m ->
               within_budget w timeout_sec j = true /\ poll w self j = Returned None) ->
    (0 < m -> check_seconds (sleep_overflow w) poll_interval = None) ->
    exists log',
      wait_loop (m + fuel) w self (now w 0) timeout_sec poll_interval k log
      = wait_loop fuel w self (now w 0) timeout_sec poll_interval (k + m) log'.
Proof.
  induction m as [|m IH]; intros k fuel log Hfail Hsleep.
  - exists log. now rewrite Nat.add_0_r.
  - destruct (Hfail k ltac:(lia)) as [Hin Hpoll].
    cbn [Nat.add wait_loop]. unfold within_budget in Hin. rewrite Hin.
    pose proof (poll_any_log k log) as Hfst. rewrite Hpoll in Hfst.
    destruct (send_nci_command _ _ _ _ _ _ _) as [o log1]. cbn [fst] in Hfst.
    subst o. unfold time_sleep, may_raise. rewrite Hsleep by lia.
    unfold ret.
    edestruct IH with (k := S k) (fuel := fuel) (log := log1) as [log' E].
    + intros j Hj. apply Hfail. lia.
    + intros _. apply Hsleep. lia.
    + exists log'. rewrite E. f_equal. lia.
Qed.

(** C7.  Let the first [n] attempts fall within the budget and find no
    response (and let the pause between attempts be one [time.sleep]
    accepts).  If the budget has run out when the loop tests it for the
    [n]-th time, [wait_for_ready] returns false.  If that test passes and
    attempt [n] finds a response -- any text -- [wait_for_ready] returns
    true there, after [n] failed attempts. *)
Theorem wait_for_ready_result (n : nat) (log : list event) :
  (forall k, k < n ->
             within_budget w timeout_sec k = true /\ poll w self k = Returned None) ->
  (0 < n -> check_seconds (sleep_overflow w) poll_interval = None) ->
  (within_budget w timeout_sec n = false ->
   forall fuel, n < fuel ->
     exists log',
       wait_for_ready fuel w self timeout_sec poll_interval log
       = Some (Returned false, log'))
  /\ (forall r, within_budget w timeout_sec n = true ->
                poll w self n = Returned (Some r) ->
      forall fuel, n < fuel ->
        exists log',
          wait_for_ready fuel w self timeout_sec poll_interval log
          = Some (Returned true, log')).
Proof.
  intros Hfail Hsleep.
  assert (Hskip : forall fuel, n < fuel ->
            exists log',
              wait_for_ready fuel w self timeout_sec poll_interval log
              = wait_loop (S (fuel - S n)) w self (now w 0) timeout_sec
                  poll_interval n log').
  { intros fuel Hfuel. unfold wait_for_ready. cbv zeta.
    assert (Hf : fuel = n + S (fuel - S n)) by lia.
    edestruct wait_loop_absent
      with (m := n) (k := 0) (fuel := S (fuel - S n)) (log := log) as [log' E].
    - intros j Hj. apply Hfail. lia.
    - exact Hsleep.
    - exists log'. rewrite Hf at 1. exact E. }
  split.
  - intros Hout fuel Hfuel. destruct (Hskip fuel Hfuel) as [log' E].
    exists log'. rewrite E. cbn [wait_loop].
    unfold within_budget in Hout. now rewrite Hout.
  - intros r Hin Hpoll fuel Hfuel. destruct (Hskip fuel Hfuel) as [log' E].
    rewrite E. cbn [wait_loop]. unfold within_budget in Hin. rewrite Hin.
    pose proof (poll_any_log n log') as Hfst. rewrite Hpoll in Hfst.
    destruct (send_nci_command _ _ _ _ _ _ _) as [o log1]. cbn [fst] in Hfst.
    subst o. now exists log1.
Qed.
End WaitFacts.

(** With a server that answers the second attempt, [wait_for_ready]
    returns true under a budget of ten seconds and false under a budget of
    one second, which has run out before the second attempt. *)
Lemma wait_for_ready_result_witness :
  (exists log',
     wait_for_ready 2 late_server local_client 10%float 0.25%float []
     = Some (Returned true, log'))
  /\ (exists log',
        wait_for_ready 2 late_server local_client 1%float 0.25%float []
        = Some (Returned false, log')).
Proof.
  split.
  - refine (proj2 (@wait_for_ready_result late_server local_client
                     10%float 0.25%float 1 [] _ _)
                  (lit "1.9") _ _ 2 _).
    + intros k Hk. assert (k = 0) by lia. subst k. split; reflexivity.
    + reflexivity.
    + reflexivity.
    + reflexivity.
    + lia.
  - refine (proj1 (@wait_for_ready_result late_server local_client
                     1%float 0.25%float 1 [] _ _) _ 2 _).
    + intros k Hk. assert (k = 0) by lia. subst k. split; reflexivity.
    + reflexivity.
    + reflexivity.
    + lia.
Defined.

(** * More on the exchange *)

Section StripFacts.
Lemma lstrip_starts_clean (s : str) : starts_clean (lstrip s) = true.
Proof.
  induction s as [|c s IH]; [reflexivity|]. simpl.
  destruct (isspace c) eqn:E; [exact IH|]. simpl. now rewrite E.
Qed.

Lemma lstrip_clean (s : str) : starts_clean s = true -> lstrip s = s.
Proof.
  destruct s as [|c s]; [reflexivity|]. simpl. intros H.
  apply negb_true_iff in H. now rewrite H.
Qed.

(** What [lstrip] removes is a whitespace prefix. *)
Lemma lstrip_suffix (s : str) :
  exists ws, s = ws ++ lstrip s /\ forallb isspace ws = true.
Proof.
  induction s as [|c s (ws & E & Hws)]; [now exists []|]. simpl.
  destruct (isspace c) eqn:Ec.
  - exists (c :: ws). simpl. rewrite Ec, Hws. now rewrite <- E.
  - now exists [].
Qed.

(** The stripped text with what was removed around it. *)
Lemma str_strip_middle (s : str) :
  exists before after,
    s = before ++ str_strip s ++ after
    /\ forallb isspace before = true /\ forallb isspace after = true.
Proof.
  unfold str_strip.
  destruct (lstrip_suffix s) as (before & E1 & H1).
  destruct (lstrip_suffix (rev (lstrip s))) as (ws & E2 & H2).
  exists before, (rev ws). split; [|split; [exact H1|]].
  - rewrite E1 at 1. f_equal.
    rewrite <- (rev_involutive (lstrip s)), E2 at 1.
    now rewrite rev_app_distr.
  - rewrite forallb_forall in *. intros c Hc. apply H2. now apply in_rev.
Qed.

Lemma str_strip_starts_clean (s : str) : starts_clean (str_strip s) = true.
Proof.
  unfold str_strip.
  destruct (lstrip_suffix (rev (lstrip s))) as (ws & E & _).
  pose proof (lstrip_starts_clean s) as Hs.
  apply (f_equal (@rev char)) in E. rewrite rev_involutive, rev_app_distr in E.
  destruct (rev (lstrip (rev (lstrip s)))) as [|c r]; [reflexivity|].
  rewrite E in Hs. exact Hs.
Qed.

Lemma str_strip_ends_clean (s : str) : starts_clean (rev (str_strip s)) = true.
Proof. unfold str_strip. rewrite rev_involutive. apply lstrip_starts_clean. Qed.

Lemma str_strip_idempotent (s : str) : str_strip (str_strip s) = str_strip s.
Proof.
  pose proof (str_strip_starts_clean s) as H1.
  pose proof (str_strip_ends_clean s) as H2.
  unfold str_strip at 1.
  rewrite (lstrip_clean _ H1), (lstrip_clean _ H2). apply rev_involutive.
Qed.

Lemma str_strip_length (s : str) : length (str_strip s) <= length s.
Proof.
  destruct (str_strip_middle s) as (b & a & E & _).
  rewrite E at 2. rewrite !length_app. lia.
Qed.

Lemma str_strip_Forall (P : char -> Prop) (s : str) :
  Forall P s -> Forall P (str_strip s).
Proof.
  destruct (str_strip_middle s) as (b & a & E & _). intros H.
  rewrite E in H. apply Forall_app in H as [_ H]. now apply Forall_app in H as [H _].
Qed.
End StripFacts.

Section EncodingFacts.
Lemma decode_chars (data : list byte) :
  Forall (fun c => decoded_char c = true) (bytes_decode_ascii_replace data).
Proof.
  unfold bytes_decode_ascii_replace. apply Forall_map, Forall_forall.
  intros b _. unfold decoded_char. cbv zeta.
  destruct (N.ltb_spec (Byte.to_N b) 128) as [H|H].
  - apply N.ltb_lt in H. now rewrite H.
  - apply orb_true_r.
Qed.

Lemma encode_ascii (text : str) :
  forallb (fun c => (c <? 128)%N) text = true ->
  exists payload,
    str_encode_ascii text = Returned payload
    /\ map Byte.to_N payload = text.
Proof.
  induction text as [|c text IH]; intros H; [now exists []|].
  simpl in H. apply andb_true_iff in H as [Hc H].
  destruct (IH H) as (payload & E & Hp). simpl. rewrite Hc, E.
  destruct (Byte.of_N c) as [b|] eqn:Eb.
  - exists (b :: payload). split; [reflexivity|]. simpl.
    now rewrite (Byte.to_of_N c Eb), Hp.
  - apply Byte.of_N_None_iff in Eb. apply N.ltb_lt in Hc. lia.
Qed.

Lemma encode_non_ascii (text : str) :
  forallb (fun c => (c <? 128)%N) text = false ->
  str_encode_ascii text = Raised UnicodeEncodeError.
Proof.
  induction text as [|c text IH]; [discriminate|]. simpl.
  destruct (c <? 128)%N; [|reflexivity]. simpl. intros H.
  rewrite (IH H). now destruct (Byte.of_N c).
Qed.

Lemma decode_of_ascii_bytes (payload : list byte) :
  forallb (fun c => (c <? 128)%N) (map Byte.to_N payload) = true ->
  bytes_decode_ascii_replace payload = map Byte.to_N payload.
Proof.
  unfold bytes_decode_ascii_replace. intros H. apply map_ext_in. intros b Hb.
  rewrite forallb_forall in H. cbv zeta. rewrite (H (Byte.to_N b)); [reflexivity|].
  now apply in_map.
Qed.

(** X1.  Encoding succeeds on ASCII text and on nothing else, and decoding
    the bytes gives the text back. *)
Theorem encode_decode_round_trip (text : str) :
  (forallb (fun c => (c <? 128)%N) text = true ->
   exists payload,
     str_encode_ascii text = Returned payload
     /\ bytes_decode_ascii_replace payload = text
     /\ length payload = length text)
  /\ (forallb (fun c => (c <? 128)%N) text = false ->
      str_encode_ascii text = Raised UnicodeEncodeError).
Proof.
  split; [|apply encode_non_ascii].
  intros H. destruct (encode_ascii _ H) as (payload & E & Hp).
  exists payload. split; [exact E|]. split.
  - rewrite decode_of_ascii_bytes; rewrite Hp; trivial.
  - rewrite <- Hp. now rewrite length_map.
Qed.
End EncodingFacts.

Lemma encode_decode_round_trip_witness :
  exists payload,
    str_encode_ascii (lit "VERSION") = Returned payload
    /\ bytes_decode_ascii_replace payload = lit "VERSION"
    /\ length payload = 7.
Proof.
  exact (proj1 (encode_decode_round_trip (lit "VERSION")) eq_refl).
Defined.

Section ExchangeFacts.
Variables (env : SocketEnv) (self : RetroArchNCI).

Ltac run :=
  unfold _send, socket_socket, sock_settimeout, sock_sendto, sock_recvfrom,
    sock_close, try_finally, try_except, bind, may_raise, emit, lift, ret, raise.

(** X2.  On a socket that could be opened, configured and closed, [_send]
    raises no [Exception] of the exchange: it returns the reply, cut at
    4096 bytes, decoded and stripped, when the message is ASCII, was sent,
    a reply was awaited and one came; in every other case it returns
    [None].  The socket is closed last. *)
Theorem send_absorbs_exceptions (msg : str) (expect_response : bool) (log : list event) :
  socket_outcome env = None ->
  check_seconds (timer_overflow env) (timeout self) = None ->
  close_outcome env = None ->
  (forall e, sendto_outcome env = Some e -> is_Exception e = true) ->
  (forall e, recvfrom_outcome env = Raised e -> is_Exception e = true) ->
  exists log',
    _send env self msg expect_response log
    = (Returned
         match str_encode_ascii msg, sendto_outcome env,
               expect_response, recvfrom_outcome env with
         | Returned _, None, true, Returned data =>
             Some (str_strip (bytes_decode_ascii_replace (firstn 4096 data)))
         | _, _, _, _ => None
         end,
       log' ++ [Closed]).
Proof. apply _send_on_open_socket. Qed.

(** X3.  Without [expect_response], [_send] does not look at the reply:
    whatever would have arrived, it does the same, receives nothing and
    returns no text. *)
Theorem send_no_wait (msg : str) (reply : outcome (list byte)) (log : list event) :
  _send (with_reply env reply) self msg false log = _send env self msg false log
  /\ filter is_received (snd (_send env self msg false log)) = filter is_received log
  /\ (fst (_send env self msg false log) = Returned None
      \/ exists e, fst (_send env self msg false log) = Raised e).
Proof.
  run. cbn [with_reply socket_outcome timer_overflow sendto_outcome close_outcome negb].
  assert (Hf : forall evs, filter is_received evs = [] ->
                           filter is_received (log ++ evs) = filter is_received log).
  { intros evs H. now rewrite filter_app, H, app_nil_r. }
  destruct (socket_outcome env) as [e0|];
    [cbn [fst snd]; split; [reflexivity|split; [first [reflexivity|now apply Hf]|right; eexists; reflexivity]]|].
  destruct (check_seconds _ _) as [e0|];
    [cbn [fst snd]; split; [reflexivity|split; [first [reflexivity|now apply Hf]|right; eexists; reflexivity]]|].
  destruct (str_encode_ascii msg) as [payload|e]; cbn [fst snd].
  - destruct (sendto_outcome env) as [e|].
    + destruct (is_socket_timeout e), (is_Exception e), (close_outcome env);
        cbn [fst snd]; rewrite <- ?app_assoc;
        (split; [reflexivity|split; [now apply Hf|]]);
        first [left; reflexivity | right; eexists; reflexivity].
    + destruct (close_outcome env);
        cbn [fst snd]; rewrite <- ?app_assoc;
        (split; [reflexivity|split; [now apply Hf|]]);
        first [left; reflexivity | right; eexists; reflexivity].
  - destruct (is_socket_timeout e), (is_Exception e), (close_outcome env);
      cbn [fst snd]; rewrite <- ?app_assoc;
      (split; [reflexivity|split; [now apply Hf|]]);
      first [left; reflexivity | right; eexists; reflexivity].
Qed.

(** X4.  Once the socket is open and configured, [_send] closes it on every
    path, also when an exception leaves the function: the socket calls it
    adds to the log are the opening, the timeout, then at most one datagram
    out and no more datagrams in than out, and the closing last. *)
Theorem send_always_closes (msg : str) (expect_response : bool) (log : list event) :
  socket_outcome env = None ->
  check_seconds (timer_overflow env) (timeout self) = None ->
  close_outcome env = None ->
  exists traffic,
    snd (_send env self msg expect_response log)
    = log ++ [Opened; TimeoutSet (timeout self)] ++ traffic ++ [Closed]
    /\ forallb is_traffic traffic = true
    /\ (length (filter is_sent traffic) <= 1)%nat
    /\ (length (filter is_received traffic) <= length (filter is_sent traffic))%nat.
Proof.
  intros Hopen Htime Hclose. run. rewrite Hopen, Htime, Hclose.
  destruct (str_encode_ascii msg) as [payload|e]; cbn [fst snd].
  - destruct (sendto_outcome env) as [e|].
    + exists [].
      destruct (is_socket_timeout e), (is_Exception e);
        cbn [fst snd]; rewrite <- ?app_assoc; repeat split; cbn; lia.
    + destruct expect_response; cbn [negb].
      * destruct (recvfrom_outcome env) as [data|e].
        -- exists [Sent payload (host self) (port self); Received (firstn 4096 data)].
           cbn [fst snd]. rewrite <- ?app_assoc. repeat split; cbn; lia.
        -- exists [Sent payload (host self) (port self)].
           destruct (is_socket_timeout e), (is_Exception e);
             cbn [fst snd]; rewrite <- ?app_assoc; repeat split; cbn; lia.
      * exists [Sent payload (host self) (port self)].
        cbn [fst snd]. rewrite <- ?app_assoc. repeat split; cbn; lia.
  - exists [].
    destruct (is_socket_timeout e), (is_Exception e);
      cbn [fst snd]; rewrite <- ?app_assoc; repeat split; cbn; lia.
Qed.

(** X5.  What happens before the [try] statement is not caught.  When the
    socket cannot be opened, [_send] raises that exception without a socket
    call in the log; when [settimeout] rejects the client's timeout, it
    raises that exception and leaves the socket it opened unclosed. *)
Theorem send_raises_before_try
    (msg : str) (expect_response : bool) (log : list event) (e : exn) :
  (socket_outcome env = Some e ->
   _send env self msg expect_response log = (Raised e, log))
  /\ (socket_outcome env = None ->
      check_seconds (timer_overflow env) (timeout self) = Some e ->
      _send env self msg expect_response log = (Raised e, log ++ [Opened])).
Proof.
  split.
  - intros H. run. now rewrite H.
  - intros H1 H2. run. now rewrite H1, H2.
Qed.

(** X6.  An exception of the wait for the reply that is no [Exception]
    (an interrupt from the keyboard) leaves [_send], after the socket is
    closed. *)
Theorem send_passes_interrupt (msg : str) (payload : list byte) (log : list event) (e : exn) :
  socket_outcome env = None ->
  check_seconds (timer_overflow env) (timeout self) = None ->
  close_outcome env = None ->
  str_encode_ascii msg = Returned payload ->
  sendto_outcome env = None ->
  recvfrom_outcome env = Raised e ->
  is_Exception e = false ->
  _send env self msg true log
  = (Raised e,
     log ++ [Opened; TimeoutSet (timeout self);
             Sent payload (host self) (port self); Closed]).
Proof.
  intros Hopen Htime Hclose Henc Hsend Hrecv He. run.
  rewrite Hopen, Htime, Hclose, Henc, Hsend, Hrecv. cbn [fst snd negb].
  assert (Ht : is_socket_timeout e = false) by (destruct e; trivial; discriminate).
  rewrite Ht, He. cbn [fst snd]. now rewrite <- !app_assoc.
Qed.

(** X7.  A message with a code point outside ASCII is not sent: encoding
    fails inside the [try], and [_send] returns [None] after closing the
    socket, without a datagram out. *)
Theorem send_non_ascii_message (msg : str) (expect_response : bool) (log : list event) :
  socket_outcome env = None ->
  check_seconds (timer_overflow env) (timeout self) = None ->
  close_outcome env = None ->
  forallb (fun c => (c <? 128)%N) msg = false ->
  _send env self msg expect_response log
  = (Returned None, log ++ [Opened; TimeoutSet (timeout self); Closed]).
Proof.
  intros Hopen Htime Hclose Hmsg. run.
  rewrite Hopen, Htime, Hclose, (encode_non_ascii _ Hmsg).
  cbn [fst snd is_socket_timeout is_Exception]. now rewrite <- !app_assoc.
Qed.

(** Where a text returned by [_send] comes from. *)
Lemma _send_text_origin (msg : str) (expect_response : bool) (log : list event) (text : str) :
  fst (_send env self msg expect_response log) = Returned (Some text) ->
  expect_response = true
  /\ exists data,
       recvfrom_outcome env = Returned data
       /\ text = str_strip (bytes_decode_ascii_replace (firstn 4096 data)).
Proof.
  run.
  destruct (socket_outcome env); [discriminate|].
  destruct (check_seconds _ _); [discriminate|].
  destruct (str_encode_ascii msg) as [payload|e]; cbn [fst snd].
  - destruct (sendto_outcome env) as [e|].
    + destruct (is_socket_timeout e), (is_Exception e), (close_outcome env);
        discriminate.
    + destruct expect_response; cbn [negb].
      * destruct (recvfrom_outcome env) as [data|e].
        -- destruct (close_outcome env); cbn [fst]; [discriminate|].
           intros [= <-]. eauto.
        -- destruct (is_socket_timeout e), (is_Exception e), (close_outcome env);
             discriminate.
      * destruct (close_outcome env); discriminate.
  - destruct (is_socket_timeout e), (is_Exception e), (close_outcome env);
      discriminate.
Qed.

(** X8.  Every text [_send] returns is the stripped decoding of the
    datagram received: its code points are ASCII or U+FFFD, it has no
    whitespace in front or behind (stripping it again changes nothing),
    and it is at most 4096 code points long.  It may be empty. *)
Theorem send_response_text (msg : str) (expect_response : bool) (log : list event) (text : str) :
  fst (_send env self msg expect_response log) = Returned (Some text) ->
  Forall (fun c => decoded_char c = true) text
  /\ str_strip text = text
  /\ starts_clean text = true /\ starts_clean (rev text) = true
  /\ (length text <= 4096)%nat.
Proof.
  intros H. apply _send_text_origin in H as (_ & data & _ & ->).
  split; [apply str_strip_Forall, decode_chars|].
  split; [apply str_strip_idempotent|].
  split; [apply str_strip_starts_clean|].
  split; [apply str_strip_ends_clean|].
  eapply Nat.le_trans; [apply str_strip_length|].
  unfold bytes_decode_ascii_replace. rewrite length_map, length_firstn. lia.
Qed.
End ExchangeFacts.

Lemma send_absorbs_exceptions_witness :
  exists log',
    _send quiet_server local_client (lit "VERSION") true []
    = (Returned None, log' ++ [Closed]).
Proof.
  refine (@send_absorbs_exceptions quiet_server local_client
            (lit "VERSION") true [] _ _ _ _ _); try reflexivity.
  - discriminate.
  - intros e [= <-]. reflexivity.
Defined.

Lemma send_always_closes_witness :
  exists traffic,
    snd (_send interrupted_server local_client (lit "VERSION") true [])
    = [] ++ [Opened; TimeoutSet 1%float] ++ traffic ++ [Closed]
    /\ forallb is_traffic traffic = true
    /\ (length (filter is_sent traffic) <= 1)%nat
    /\ (length (filter is_received traffic) <= length (filter is_sent traffic))%nat.
Proof.
  exact (@send_always_closes interrupted_server local_client
           (lit "VERSION") true [] eq_refl eq_refl eq_refl).
Defined.

Lemma send_raises_before_try_witness :
  _send quiet_server negative_timeout_client (lit "VERSION") true []
  = (Raised ValueError, [Opened]).
Proof.
  exact (proj2 (@send_raises_before_try quiet_server negative_timeout_client
                  (lit "VERSION") true [] ValueError) eq_refl eq_refl).
Defined.

Lemma send_passes_interrupt_witness :
  fst (_send interrupted_server local_client (lit "VERSION") true [])
  = Raised KeyboardInterrupt.
Proof.
  destruct (encode_ascii (lit "VERSION") eq_refl) as (payload & E & _).
  rewrite (@send_passes_interrupt interrupted_server local_client
             (lit "VERSION") payload [] KeyboardInterrupt
             eq_refl eq_refl eq_refl E eq_refl eq_refl eq_refl).
  reflexivity.
Defined.

Lemma send_non_ascii_message_witness :
  _send quiet_server local_client [0xE9%N] true []
  = (Returned None, [Opened; TimeoutSet 1%float; Closed]).
Proof.
  exact (@send_non_ascii_message quiet_server local_client [0xE9%N] true []
           eq_refl eq_refl eq_refl eq_refl).
Defined.

Lemma send_response_text_witness :
  str_strip (lit "1.9") = lit "1.9" /\ (length (lit "1.9") <= 4096)%nat.
Proof.
  pose proof (@send_response_text
                (answering_server ["1"%byte; "."%byte; "9"%byte; x0a])
                local_client (lit "VERSION") true [] (lit "1.9") eq_refl)
    as (_ & H & _ & _ & L).
  exact (conj H L).
Defined.

(** * More on decoding *)

Section DecodeMore.
Context {db : UnicodeDB}.
Local Open Scope Z_scope.

(** The decoder looks at the byte tokens only. *)
Lemma decode_by_byte_tokens (resp : str) :
  read_core_memory_decode (Some resp) =
    match byte_tokens resp with
    | [] => Returned None
    | b0 :: rest =>
        if list_eq_dec (list_eq_dec N.eq_dec) (b0 :: rest) [lit "-1"]
        then Returned None
        else match assemble (b0 :: rest) 0 0 with
             | Returned val => Returned (Some val)
             | Raised e => if is_ValueError e then Returned None else Raised e
             end
    end.
Proof.
  unfold byte_tokens.
  destruct (str_split resp) as [|c [|a [|b0 rest]]] eqn:Hs;
    try (unfold read_core_memory_decode; now rewrite Hs).
  now rewrite (decode_tokens _ Hs).
Qed.

(** Equal byte tokens, equal results. *)
Lemma decode_ignores_name_and_address_aux (resp1 resp2 : str) :
  byte_tokens resp1 = byte_tokens resp2 ->
  read_core_memory_decode (Some resp1) = read_core_memory_decode (Some resp2).
Proof. intros H. now rewrite !decode_by_byte_tokens, H. Qed.

(** X9.  The decoder does not check the echoed command name or address:
    two replies with the same byte tokens decode alike, whatever their
    first two tokens. *)
Theorem decode_ignores_name_and_address (resp1 resp2 : str) :
  byte_tokens resp1 = byte_tokens resp2 ->
  read_core_memory_decode (Some resp1) = read_core_memory_decode (Some resp2).
Proof. apply decode_ignores_name_and_address_aux. Qed.

Lemma split_aux_leading (ws : str) :
  forallb isspace ws = true -> forall s, split_aux (ws ++ s) [] = split_aux s [].
Proof.
  induction ws as [|c ws IH]; intros H s; [reflexivity|].
  simpl in H. apply andb_true_iff in H as [Hc H]. simpl. rewrite Hc. now apply IH.
Qed.

Lemma split_aux_trailing (ws : str) :
  forallb isspace ws = true ->
  forall s cur, split_aux (s ++ ws) cur = split_aux s cur.
Proof.
  intros H. induction s as [|c s IH]; intros cur.
  - simpl. destruct cur as [|c0 cur].
    + now apply split_aux_spaces.
    + now apply split_aux_tail.
  - simpl. destruct (isspace c); [destruct cur|]; now rewrite ?IH.
Qed.

Lemma split_surrounded (before s after : str) :
  forallb isspace before = true -> forallb isspace after = true ->
  str_split (before ++ s ++ after) = str_split s.
Proof.
  intros Hb Ha. unfold str_split.
  rewrite split_aux_leading by assumption. now apply split_aux_trailing.
Qed.

Lemma split_strip (s : str) : str_split (str_strip s) = str_split s.
Proof.
  destruct (str_strip_middle s) as (b & a & E & Hb & Ha).
  rewrite E at 2. symmetry. now apply split_surrounded.
Qed.

(** X10.  Whitespace around a reply does not matter to the decoder: a reply
    decodes as its stripped text does, and as it does with any whitespace
    (a newline, say) added in front or behind. *)
Theorem decode_ignores_surrounding_whitespace (resp before after : str) :
  forallb isspace before = true ->
  forallb isspace after = true ->
  read_core_memory_decode (Some (before ++ resp ++ after))
  = read_core_memory_decode (Some resp)
  /\ read_core_memory_decode (Some (str_strip resp))
     = read_core_memory_decode (Some resp).
Proof.
  intros Hb Ha. split; apply decode_ignores_name_and_address_aux.
  - unfold byte_tokens. now rewrite split_surrounded.
  - unfold byte_tokens. now rewrite split_strip.
Qed.
End DecodeMore.

Lemma decode_ignores_name_and_address_witness :
  @read_core_memory_decode ascii_digits_only (Some (lit "VERSION 1.9.0 0A"))
  = @read_core_memory_decode ascii_digits_only (Some (lit "READ_CORE_MEMORY 100 0A")).
Proof.
  exact (@decode_ignores_name_and_address ascii_digits_only
           (lit "VERSION 1.9.0 0A") (lit "READ_CORE_MEMORY 100 0A") eq_refl).
Defined.

Lemma decode_ignores_surrounding_whitespace_witness :
  @read_core_memory_decode ascii_digits_only
    (Some ([] ++ lit "READ_CORE_MEMORY 100 0A" ++ [NEWLINE]))
  = @read_core_memory_decode ascii_digits_only (Some (lit "READ_CORE_MEMORY 100 0A")).
Proof.
  exact (proj1 (@decode_ignores_surrounding_whitespace ascii_digits_only
                  (lit "READ_CORE_MEMORY 100 0A") [] [NEWLINE] eq_refl eq_refl)).
Defined.

Section LittleEndianFacts.
Context {db : UnicodeDB}.
Local Open Scope Z_scope.

Lemma le_value_bound (byte_values : list Z) :
  Forall (fun v => 0 <= v < 256) byte_values ->
  0 <= le_value byte_values < 256 ^ Z.of_nat (length byte_values).
Proof.
  induction 1 as [|v vs Hv _ IH]; [simpl; lia|].
  cbn [le_value length]. rewrite Nat2Z.inj_succ, Z.pow_succ_r by lia. lia.
Qed.

Lemma le_value_digit (byte_values : list Z) :
  Forall (fun v => 0 <= v < 256) byte_values ->
  forall i, (i < length byte_values)%nat ->
            (le_value byte_values / 256 ^ Z.of_nat i) mod 256 = nth i byte_values 0.
Proof.
  induction 1 as [|v vs Hv _ IH]; intros i Hi; [simpl in Hi; lia|].
  cbn [le_value]. destruct i as [|i].
  - change (256 ^ Z.of_nat 0) with 1. rewrite Z.div_1_r. cbn [nth].
    rewrite (Z.mul_comm 256), Z.mod_add by lia. apply Z.mod_small. lia.
  - cbn [nth]. simpl in Hi. rewrite <- (IH i) by lia.
    rewrite Nat2Z.inj_succ, Z.pow_succ_r by lia.
    rewrite <- Z.div_div by lia. f_equal. f_equal.
    rewrite (Z.mul_comm 256), Z.div_add by lia.
    rewrite (Z.div_small v 256) by lia. lia.
Qed.

(** X11.  When the byte tokens of a reply are bytes (0..255), the integer
    decoded from [n] of them lies in [0, 256^n) and gives every byte back:
    byte [i] is digit [i] of the integer in base 256.  So the first token
    is the least significant byte, and replies of the same length with
    different bytes decode to different integers. *)
Theorem decode_bytes_base_256
    (resp cmd_name addr_str : str) (byte_parts : list str) (byte_values : list Z) :
  str_split resp = cmd_name :: addr_str :: byte_parts ->
  byte_parts <> [] ->
  Forall2 (fun b v => int16 b = Returned v) byte_parts byte_values ->
  Forall (fun v => 0 <= v < 256) byte_values ->
  exists z,
    read_core_memory_decode (Some resp) = Returned (Some z)
    /\ 0 <= z < 256 ^ Z.of_nat (length byte_parts)
    /\ forall i, (i < length byte_parts)%nat ->
                 (z / 256 ^ Z.of_nat i) mod 256 = nth i byte_values 0.
Proof.
  intros Hs Hne Hv Hr. exists (le_value byte_values).
  pose proof (Forall2_length Hv) as Hlen.
  split; [|split].
  - rewrite <- le_assembly_value by assumption.
    eapply decode_assembles; try eassumption.
    intros ->. inversion Hv as [|b v bs vs Hb Hrest]; subst.
    inversion Hr as [|v' vs' Hrange _]; subst.
    assert (Hm : int16 (lit "-1") = Returned (-1)) by reflexivity.
    rewrite Hm in Hb. injection Hb as <-. lia.
  - rewrite Hlen. now apply le_value_bound.
  - intros i Hi. apply le_value_digit; [assumption|]. now rewrite <- Hlen.
Qed.

(** The two digits written for a byte are a token that reads back. *)
Lemma format_02X_reads_back (bytes_list : list Z) :
  Forall (fun b => 0 <= b < 256) bytes_list ->
  Forall clean_token (map format_02X bytes_list)
  /\ Forall2 (fun t v => int16 t = Returned v) (map format_02X bytes_list) bytes_list.
Proof.
  induction 1 as [|b bs Hb _ [IH1 IH2]]; [split; constructor|].
  destruct (format_02X_upper_hex Hb) as [_ (Hn & Hu & Hi)].
  split; constructor; trivial.
  split; [exact Hn|now apply upper_hex_no_space].
Qed.

(** X12.  What [write_core_memory] writes, [read_core_memory] reads: a reply
    that lists bytes (0..255) the way [write_core_memory] formats them --
    two uppercase hexadecimal digits each, single spaces between --
    decodes to the integer with these bytes, least significant first. *)
Theorem write_format_read_back (address : Z) (bytes_list : list Z) :
  bytes_list <> [] ->
  Forall (fun b => 0 <= b < 256) bytes_list ->
  read_core_memory_decode
    (Some (lit "READ_CORE_MEMORY"
             ++ after_spaces (format_X address :: map format_02X bytes_list)))
  = Returned (Some (le_value bytes_list)).
Proof.
  intros Hne Hb. destruct (format_02X_reads_back Hb) as [Hclean Hread].
  rewrite <- le_assembly_value by assumption.
  eapply decode_assembles with (byte_parts := map format_02X bytes_list).
  - rewrite <- join_after_spaces, <- (app_nil_r (str_join _ _)).
    apply split_join; [|reflexivity].
    constructor; [split; [discriminate|reflexivity]|].
    constructor; [apply format_X_clean|exact Hclean].
  - destruct bytes_list; [contradiction|discriminate].
  - destruct bytes_list as [|b [|b' bs]]; [contradiction| |discriminate].
    inversion Hb as [|? ? Hb0 _]; subst. cbn [map].
    rewrite (format_02X_byte Hb0). change (lit "-1") with [45%N; 49%N].
    intros [= E _]. unfold hex_upper_char in E.
    generalize dependent (Z.to_N b / 16)%N. intros q E.
    destruct (q <? 10)%N; lia.
  - exact Hread.
Qed.
End LittleEndianFacts.

Lemma decode_bytes_base_256_witness :
  exists z,
    @read_core_memory_decode ascii_digits_only
      (Some (lit "READ_CORE_MEMORY 100 01 02 03")) = Returned (Some z)
    /\ (0 <= z < 256 ^ Z.of_nat 3)%Z
    /\ forall i, (i < 3)%nat -> ((z / 256 ^ Z.of_nat i) mod 256)%Z = nth i [1; 2; 3]%Z 0%Z.
Proof.
  refine (@decode_bytes_base_256 ascii_digits_only
            (lit "READ_CORE_MEMORY 100 01 02 03")
            (lit "READ_CORE_MEMORY") (lit "100")
            [lit "01"; lit "02"; lit "03"] [1; 2; 3]%Z _ _ _ _).
  - reflexivity.
  - discriminate.
  - repeat constructor.
  - repeat constructor; lia.
Defined.

Lemma write_format_read_back_witness :
  @read_core_memory_decode ascii_digits_only
    (Some (lit "READ_CORE_MEMORY 10 01 FF")) = Returned (Some 0xFF01%Z).
Proof.
  refine (@write_format_read_back ascii_digits_only 0x10%Z [1; 255]%Z _ _).
  - discriminate.
  - repeat constructor; lia.
Defined.

(** * Letter case in replies *)

Section CaseFacts.
Context {db : UnicodeDB}.
Local Open Scope N_scope.

Ltac ncases :=
  repeat match goal with
    | |- context [N.leb ?a ?b] => destruct (N.leb_spec a b)
    | |- context [N.ltb ?a ?b] => destruct (N.ltb_spec a b)
    | |- context [N.eqb ?a ?b] => destruct (N.eqb_spec a b)
    | H : context [N.leb ?a ?b] |- _ => destruct (N.leb_spec a b)
    | H : context [N.ltb ?a ?b] |- _ => destruct (N.ltb_spec a b)
    | H : context [N.eqb ?a ?b] |- _ => destruct (N.eqb_spec a b)
    end;
  cbn [andb orb negb] in *; try congruence; try lia; try reflexivity.

Local Abbreviation up := ascii_upper_char.

Lemma up_cases (c : char) :
  (97 <= c <= 122 /\ up c = c - 32) \/ ((c < 97 \/ 122 < c) /\ up c = c).
Proof.
  unfold ascii_upper_char.
  destruct (N.leb_spec 97 c), (N.leb_spec c 122); cbn [andb];
    [left|right|right|right]; split; trivial; lia.
Qed.

Lemma up_isspace (c : char) : isspace (up c) = isspace c.
Proof.
  destruct (up_cases c) as [[H ->]|[_ ->]]; [|reflexivity].
  rewrite !isspace_printable; trivial; lia.
Qed.

Lemma up_c_isspace (c : char) : c_isspace (up c) = c_isspace c.
Proof.
  destruct (up_cases c) as [[H ->]|[_ ->]]; [|reflexivity].
  unfold c_isspace. ncases.
Qed.

Lemma up_hex_digit_value (c : char) : hex_digit_value (up c) = hex_digit_value c.
Proof.
  destruct (up_cases c) as [[H ->]|[_ ->]]; [|reflexivity].
  unfold hex_digit_value. ncases. f_equal. lia.
Qed.

(** A character that is no letter is met after [up] where it was before. *)
Lemma up_eqb (c k : char) : k < 65 \/ (90 < k < 97) \/ 122 < k ->
  (up c =? k) = (c =? k).
Proof.
  intros Hk. destruct (up_cases c) as [[H ->]|[_ ->]]; [|reflexivity]. ncases.
Qed.

Lemma up_x (c : char) : ((up c =? 120) || (up c =? 88)) = ((c =? 120) || (c =? 88)).
Proof.
  destruct (up_cases c) as [[H ->]|[_ ->]]; [|reflexivity]. ncases.
Qed.

Lemma up_ascii (c : char) : (up c <? 128) = (c <? 128).
Proof.
  destruct (up_cases c) as [[H ->]|[_ ->]]; [|reflexivity]. ncases.
Qed.

Lemma up_skip_c_spaces (s : str) :
  skip_c_spaces (map up s) = map up (skip_c_spaces s).
Proof.
  induction s as [|c s IH]; [reflexivity|]. simpl. rewrite up_c_isspace.
  now destruct (c_isspace c).
Qed.

Lemma up_read_sign (s : str) :
  read_sign (map up s) = (fst (read_sign s), map up (snd (read_sign s))).
Proof.
  destruct s as [|c s]; [reflexivity|]. simpl.
  rewrite !up_eqb by lia.
  destruct (c =? 43); [reflexivity|]. now destruct (c =? 45).
Qed.

Lemma up_skip_prefix16 (s : str) :
  skip_prefix16 (map up s) = map up (skip_prefix16 s).
Proof.
  destruct s as [|c0 [|c1 r]]; try reflexivity. simpl.
  rewrite up_x, (up_eqb c0) by lia.
  destruct ((c0 =? 48) && _)%bool; [|reflexivity].
  destruct r as [|c2 r]; [reflexivity|]. simpl. rewrite up_eqb by lia.
  now destruct (c2 =? 95).
Qed.

Lemma up_starts_with_underscore (s : str) :
  starts_with_underscore (map up s) = starts_with_underscore s.
Proof. destruct s; [reflexivity|]. simpl. apply up_eqb. lia. Qed.

Lemma up_scan_hex (s : str) :
  forall prev acc,
    scan_hex (map up s) prev acc
    = match scan_hex s prev acc with
      | Some (z, rest) => Some (z, map up rest)
      | None => None
      end.
Proof.
  induction s as [|c s IH]; intros prev acc; simpl.
  - now destruct prev.
  - rewrite up_eqb, up_hex_digit_value by lia.
    destruct (c =? 95); [destruct prev; [reflexivity|apply IH]|].
    destruct (hex_digit_value c); [apply IH|]. now destruct prev.
Qed.

Lemma up_skip_c_spaces_nil (s : str) :
  skip_c_spaces s = [] <-> skip_c_spaces (map up s) = [].
Proof.
  rewrite up_skip_c_spaces. destruct (skip_c_spaces s); simpl; split; congruence.
Qed.

Lemma up_long_from_string16 (s : str) :
  long_from_string16 (map up s) = long_from_string16 s.
Proof.
  unfold long_from_string16.
  rewrite up_skip_c_spaces, up_read_sign.
  destruct (read_sign (skip_c_spaces s)) as [negative s1]. cbn [fst snd].
  rewrite up_skip_prefix16, up_starts_with_underscore.
  destruct (starts_with_underscore _); [reflexivity|].
  rewrite up_scan_hex.
  destruct (scan_hex (skip_prefix16 s1) false 0) as [[z rest]|]; [|reflexivity].
  rewrite !length_map, up_skip_c_spaces.
  destruct (_ =? _)%nat; [reflexivity|].
  now destruct (skip_c_spaces rest).
Qed.

Lemma up_forallb_ascii (s : str) :
  forallb (fun c => c <? 128) (map up s) = forallb (fun c => c <? 128) s.
Proof.
  induction s as [|c s IH]; [reflexivity|]. simpl. now rewrite up_ascii, IH.
Qed.

Lemma up_idempotent (c : char) : up (up c) = up c.
Proof.
  destruct (up_cases c) as [[H Hu]|[_ Hu]]; rewrite !Hu; [|reflexivity].
  unfold ascii_upper_char. ncases.
Qed.

(** The ASCII form of the text, up to letter case. *)
Lemma up_transform (s : str) :
  map up (transform_decimal_and_space (map up s))
  = map up (transform_decimal_and_space s).
Proof.
  induction s as [|c s IH]; [reflexivity|]. simpl.
  destruct (up_cases c) as [[H Hu]|[H Hu]]; rewrite Hu.
  - assert (E1 : (c - 32 <? 127) = true) by (apply N.ltb_lt; lia).
    assert (E2 : (c <? 127) = true) by (apply N.ltb_lt; lia).
    rewrite E1, E2. simpl. rewrite IH. f_equal.
    rewrite <- Hu. apply up_idempotent.
  - destruct (c <? 127); [simpl; now rewrite IH|].
    destruct (isspace c); [simpl; now rewrite IH|].
    destruct (todecimal c) as [d|]; [|reflexivity].
    simpl. now rewrite IH.
Qed.

Lemma up_int16 (s : str) : int16 (map up s) = int16 s.
Proof.
  unfold int16. rewrite up_forallb_ascii.
  destruct (forallb (fun c => c <? 128) s); [now rewrite up_long_from_string16|].
  rewrite <- (up_long_from_string16 (transform_decimal_and_space (map up s))).
  now rewrite up_transform, up_long_from_string16.
Qed.

Lemma up_split_aux (s : str) :
  forall cur, split_aux (map up s) (map up cur) = map (map up) (split_aux s cur).
Proof.
  induction s as [|c s IH]; intros cur; simpl.
  - destruct cur; [reflexivity|]. simpl. now rewrite map_app, map_rev.
  - rewrite up_isspace. destruct (isspace c).
    + destruct cur as [|c0 cur]; [apply (IH [])|].
      simpl. rewrite <- (IH []). now rewrite map_app, map_rev.
    + apply (IH (c :: cur)).
Qed.

Lemma up_assemble (byte_parts : list str) :
  forall i val, assemble (map (map up) byte_parts) i val = assemble byte_parts i val.
Proof.
  induction byte_parts as [|b bs IH]; intros i val; [reflexivity|].
  simpl. rewrite up_int16. destruct (int16 b); [apply IH|reflexivity].
Qed.

Lemma up_minus_one (b : str) : map up b = lit "-1" <-> b = lit "-1".
Proof.
  split; [|now intros ->].
  destruct b as [|c1 [|c2 [|c3 b]]]; try discriminate.
  change (lit "-1") with [45; 49]. simpl. intros [= E1 E2].
  f_equal; [|f_equal].
  - destruct (up_cases c1) as [[H Hu]|[_ Hu]]; rewrite Hu in E1; [lia|exact E1].
  - destruct (up_cases c2) as [[H Hu]|[_ Hu]]; rewrite Hu in E2; [lia|exact E2].
Qed.

(** X13.  The case of letters in a reply does not matter to the decoder:
    the reply and its uppercase form decode alike, so [0a ff] and [0A FF]
    are read as the same bytes. *)
Theorem decode_ignores_letter_case (resp : str) :
  read_core_memory_decode (Some (map ascii_upper_char resp))
  = read_core_memory_decode (Some resp).
Proof.
  rewrite !decode_by_byte_tokens.
  assert (Hb : byte_tokens (map up resp) = map (map up) (byte_tokens resp)).
  { unfold byte_tokens, str_split.
    change (split_aux (map up resp) []) with (split_aux (map up resp) (map up [])).
    rewrite up_split_aux. now rewrite skipn_map. }
  rewrite Hb. destruct (byte_tokens resp) as [|b0 rest]; [reflexivity|].
  cbn [map].
  change (map up b0 :: map (map up) rest) with (map (map up) (b0 :: rest)).
  rewrite up_assemble.
  destruct (list_eq_dec (list_eq_dec N.eq_dec) (map (map up) (b0 :: rest)) [lit "-1"])
    as [E|E];
    destruct (list_eq_dec (list_eq_dec N.eq_dec) (b0 :: rest) [lit "-1"]) as [E'|E'];
    try reflexivity.
  - elim E'. destruct rest; [|discriminate].
    cbn [map] in E. injection E as E.
    apply (proj1 (up_minus_one b0)) in E. now rewrite E.
  - elim E. injection E' as -> ->. reflexivity.
Qed.
End CaseFacts.

(** * Numbers on the command line *)

Section DecimalFacts.
Local Open Scope N_scope.








End DecimalFacts.

Section WireFacts.
Local Open Scope N_scope.



Lemma upper_hex_ascii (t : str) : forallb is_upper_hex t = true -> is_ascii t = true.
Proof.
  unfold is_ascii. rewrite !forallb_forall. intros H c Hc. specialize (H c Hc).
  unfold is_upper_hex in H. apply N.ltb_lt.
  destruct (N.leb_spec 48 c), (N.leb_spec c 57), (N.leb_spec 65 c), (N.leb_spec c 70);
    cbn in H; try discriminate; lia.
Qed.

Lemma is_ascii_app (s t : str) : is_ascii (s ++ t) = is_ascii s && is_ascii t.
Proof. apply forallb_app. Qed.

Lemma format_X_ascii (n : Z) : is_ascii (format_X n) = true.
Proof.
  unfold format_X. rewrite is_ascii_app, (upper_hex_ascii _ (hex_of_N_upper _)).
  now destruct (n <? 0)%Z.
Qed.

Lemma zero_pad_upper (width : nat) (digits : str) :
  forallb is_upper_hex digits = true ->
  forallb is_upper_hex (zero_pad width digits) = true.
Proof.
  intros H. unfold zero_pad. rewrite forallb_app. apply andb_true_iff.
  split; [|exact H].
  induction (width - length digits)%nat as [|k IH]; [reflexivity|exact IH].
Qed.

Lemma format_02X_ascii (n : Z) : is_ascii (format_02X n) = true.
Proof.
  unfold format_02X. destruct (n <? 0)%Z.
  - rewrite is_ascii_app. apply andb_true_iff. split; [reflexivity|].
    apply upper_hex_ascii, zero_pad_upper, hex_of_N_upper.
  - apply upper_hex_ascii, zero_pad_upper, hex_of_N_upper.
Qed.

Lemma join_ascii (items : list str) :
  forallb is_ascii items = true -> is_ascii (str_join (lit " ") items) = true.
Proof.
  induction items as [|t rest IH]; [reflexivity|]. cbn [forallb]. intros H.
  apply andb_true_iff in H as [Ht H]. destruct rest as [|t' rest]; [exact Ht|].
  change (str_join (lit " ") (t :: t' :: rest))
    with (t ++ lit " " ++ str_join (lit " ") (t' :: rest)).
  rewrite !is_ascii_app, Ht, (IH H). reflexivity.
Qed.


Lemma write_core_memory_cmd_ascii (address : Z) (bytes_list : list Z) :
  is_ascii (write_core_memory_cmd address bytes_list) = true.
Proof.
  unfold write_core_memory_cmd. cbv zeta.
  rewrite !is_ascii_app, format_X_ascii, join_ascii; [reflexivity|].
  rewrite forallb_forall. intros t Ht. apply in_map_iff in Ht as (b & <- & _).
  apply format_02X_ascii.
Qed.

Lemma upper_hex_digit_bound (c : char) :
  is_upper_hex c = true ->
  exists d, hex_digit_value c = Some d /\ (0 <= d < 16)%Z.
Proof.
  unfold is_upper_hex, hex_digit_value. intros H.
  destruct (N.leb_spec 48 c), (N.leb_spec c 57); cbn in H |- *;
    try (eexists; split; [reflexivity|lia]);
    destruct (N.leb_spec 97 c), (N.leb_spec c 102); cbn in H |- *;
    try (eexists; split; [reflexivity|lia]);
    destruct (N.leb_spec 65 c), (N.leb_spec c 70); cbn in H |- *;
    try discriminate; try (eexists; split; [reflexivity|lia]).
Qed.

(** At most two uppercase digits denote less than 256. *)
Lemma two_digits_bound (t : str) :
  (length t <= 2)%nat -> forallb is_upper_hex t = true ->
  (0 <= hex_value_from 0 t < 256)%Z.
Proof.
  intros Hlen Hu. destruct t as [|c1 [|c2 [|c3 t]]]; [cbn; lia| | |simpl in Hlen; lia].
  - simpl in Hu. apply andb_true_iff in Hu as [H1 _].
    destruct (upper_hex_digit_bound _ H1) as (d1 & E1 & B1).
    unfold hex_value_from. cbn [fold_left]. rewrite E1. lia.
  - simpl in Hu. apply andb_true_iff in Hu as [H1 Hu].
    apply andb_true_iff in Hu as [H2 _].
    destruct (upper_hex_digit_bound _ H1) as (d1 & E1 & B1).
    destruct (upper_hex_digit_bound _ H2) as (d2 & E2 & B2).
    unfold hex_value_from. cbn [fold_left]. rewrite E1, E2. lia.
Qed.

(** X14.  [write_core_memory] does not check that its values are bytes.
    Whatever the integers, the line is ASCII, so it is sent; and a value
    is written as exactly two uppercase hexadecimal digits if and only if
    it is a byte (0..255) -- any other gets more digits or a minus sign. *)
Theorem write_core_memory_any_integers (address : Z) (bytes_list : list Z) :
  is_ascii (write_core_memory_cmd address bytes_list) = true
  /\ Forall (fun b =>
               (0 <= b < 256)%Z
               <-> (length (format_02X b) = 2%nat
                    /\ forallb is_upper_hex (format_02X b) = true))
       bytes_list.
Proof.
  split; [apply write_core_memory_cmd_ascii|].
  apply Forall_forall. intros b _. split.
  - intros Hb. rewrite (format_02X_byte Hb). split; [reflexivity|].
    simpl. rewrite !hex_upper_char_is_upper; trivial.
    + apply N.mod_lt. lia.
    + apply N.Div0.div_lt_upper_bound. lia.
  - intros [Hlen Hu]. unfold format_02X in *.
    destruct (Z.ltb_spec b 0) as [Hneg|Hpos]; [discriminate|].
    replace (Z.abs_N b) with (Z.to_N b) in * by (destruct b; try reflexivity; lia).
    set (n := Z.to_N b) in *.
    assert (Hn : (Z.of_N n < 256)%Z).
    { rewrite <- hex_of_N_value.
      apply two_digits_bound; [|apply hex_of_N_upper].
      unfold zero_pad in Hlen. rewrite length_app, repeat_length in Hlen.
      unfold char in *. lia. }
    unfold n in Hn. lia.
Qed.
End WireFacts.

Section ReadCommandFacts.
Context {db : UnicodeDB}.
Variables (env : SocketEnv) (self : RetroArchNCI).


Ltac run :=
  unfold read_core_memory, _send, socket_socket, sock_settimeout, sock_sendto,
    sock_recvfrom, sock_close, try_finally, try_except, bind, may_raise, emit,
    lift, ret, raise.

End ReadCommandFacts.

(** The value 256 is sent all the same, with three digits. *)
Lemma write_core_memory_any_integers_witness :
  is_ascii (write_core_memory_cmd (-16) [1; 256; -1]%Z) = true
  /\ ~ (length (format_02X 256) = 2
        /\ forallb is_upper_hex (format_02X 256) = true).
Proof.
  pose proof (write_core_memory_any_integers (-16) [1; 256; -1]%Z) as [H F].
  split; [exact H|].
  inversion F as [|? ? _ F']. inversion F' as [|? ? [_ H256] _].
  intros Hd. apply H256 in Hd. lia.
Defined.



(** * More on waiting for the server *)

Section WaitMore.
Variables (w : World) (self : RetroArchNCI).
Variables (timeout_sec poll_interval : float).

(** X17.  A pause [time.sleep] rejects (a negative one, say) is noticed only
    after an attempt has failed: when the first attempt, within the budget,
    finds no response, [wait_for_ready] raises the exception of
    [time.sleep]; when it finds a response, [wait_for_ready] returns true
    and the pause is never looked at. *)
Theorem wait_for_ready_bad_interval (e : exn) (fuel : nat) (log : list event) :
  check_seconds (sleep_overflow w) poll_interval = Some e ->
  within_budget w timeout_sec 0 = true ->
  (poll w self 0 = Returned None ->
   exists log',
     wait_for_ready (S fuel) w self timeout_sec poll_interval log
     = Some (Raised e, log'))
  /\ (forall r, poll w self 0 = Returned (Some r) ->
      exists log',
        wait_for_ready (S fuel) w self timeout_sec poll_interval log
        = Some (Returned true, log')).
Proof.
  intros Hsleep Hin. unfold within_budget in Hin.
  split; [intros Hpoll|intros r Hpoll];
    unfold wait_for_ready; cbn [wait_loop]; rewrite Hin;
    pose proof (poll_any_log w self 0 log) as Hfst; rewrite Hpoll in Hfst;
    destruct (send_nci_command _ _ _ _ _ _ _) as [o log1]; cbn [fst] in Hfst;
    subst o.
  - unfold time_sleep, may_raise, raise. rewrite Hsleep. now exists log1.
  - now exists log1.
Qed.

(** X18.  An exception that leaves [_send] leaves [wait_for_ready] too:
    after [n] attempts within the budget that found no response, an
    attempt that raises ends the wait with that exception, not with
    false. *)
Theorem wait_for_ready_poll_raises (n : nat) (e : exn) (log : list event) :
  (forall k, k < n ->
             within_budget w timeout_sec k = true /\ poll w self k = Returned None) ->
  (0 < n -> check_seconds (sleep_overflow w) poll_interval = None) ->
  within_budget w timeout_sec n = true ->
  poll w self n = Raised e ->
  forall fuel, n < fuel ->
    exists log',
      wait_for_ready fuel w self timeout_sec poll_interval log
      = Some (Raised e, log').
Proof.
  intros Hfail Hsleep Hin Hpoll fuel Hfuel.
  assert (Hf : fuel = n + S (fuel - S n)) by lia.
  edestruct wait_loop_absent
    with (w := w) (self := self) (timeout_sec := timeout_sec)
         (poll_interval := poll_interval)
         (m := n) (k := 0) (fuel := S (fuel - S n)) (log := log) as [log' E].
  - intros j Hj. apply Hfail. lia.
  - exact Hsleep.
  - rewrite <- Hf in E. unfold wait_for_ready. cbv zeta.
    cbn [wait_loop Nat.add] in E. unfold within_budget in Hin. rewrite Hin in E.
    pose proof (poll_any_log w self n log') as Hfst. rewrite Hpoll in Hfst.
    destruct (send_nci_command _ _ _ _ _ _ _) as [o log1]. cbn [fst] in Hfst.
    subst o. now exists log1.
Qed.

Ltac run :=
  unfold send_nci_command, cmd, cmd_message, _send, socket_socket,
    sock_settimeout, sock_sendto, sock_recvfrom, sock_close, try_finally,
    try_except, bind, may_raise, emit, lift, ret, raise.

(** One [VERSION] exchange on a socket that works. *)
Lemma poll_trace (env : SocketEnv) (log : list event) :
  socket_works env self ->
  (forall e, recvfrom_outcome env = Raised e -> is_Exception e = true) ->
  exists traffic,
    send_nci_command pyobj_str env self (inl VERSION) [] true log
    = (Returned match recvfrom_outcome env with
                | Returned data =>
                    Some (str_strip (bytes_decode_ascii_replace (firstn 4096 data)))
                | Raised _ => None
                end,
       log ++ traffic)
    /\ filter is_sent traffic = [Sent version_payload (host self) (port self)]
    /\ filter is_closed traffic = [Closed].
Proof.
  intros (Hopen & Htime & Hsend & Hclose) Hrecv. run.
  change (str_encode_ascii (lit (name VERSION))) with (Returned version_payload).
  rewrite Hopen, Htime, Hsend, Hclose. cbn [fst snd negb].
  destruct (recvfrom_outcome env) as [data|e] eqn:Er.
  - eexists [_; _; _; _; _]. cbn [fst snd]. rewrite <- !app_assoc.
    split; [reflexivity|]. split; reflexivity.
  - rewrite (Hrecv e eq_refl).
    eexists [_; _; _; _].
    destruct (is_socket_timeout e); cbn [fst snd]; rewrite <- !app_assoc;
      (split; [reflexivity|]); split; reflexivity.
Qed.

(** [m] attempts that time out, with what they leave in the log. *)
Lemma wait_loop_absent_trace (m : nat) :
  forall k fuel log,
    (forall j, k <= j < k + m ->
               within_budget w timeout_sec j = true
               /\ socket_works (net w j) self
               /\ exists e, recvfrom_outcome (net w j) = Raised e
                            /\ is_Exception e = true) ->
    (0 < m -> check_seconds (sleep_overflow w) poll_interval = None) ->
    exists log',
      wait_loop (m + fuel) w self (now w 0) timeout_sec poll_interval k log
      = wait_loop fuel w self (now w 0) timeout_sec poll_interval (k + m) log'
      /\ filter is_sent log'
         = filter is_sent log
             ++ repeat (Sent version_payload (host self) (port self)) m
      /\ filter is_closed log' = filter is_closed log ++ repeat Closed m.
Proof.
  induction m as [|m IH]; intros k fuel log Hfail Hsleep.
  - exists log. rewrite Nat.add_0_r, !app_nil_r. auto.
  - destruct (Hfail k ltac:(lia)) as (Hin & Hworks & e & Hrecv & He).
    cbn [Nat.add wait_loop]. unfold within_budget in Hin. rewrite Hin.
    destruct (poll_trace log Hworks) as (traffic & E & Hs & Hc).
    { intros e' He'. rewrite Hrecv in He'. now injection He' as <-. }
    rewrite E, Hrecv. unfold time_sleep, may_raise. rewrite Hsleep by lia.
    unfold ret.
    edestruct IH with (k := S k) (fuel := fuel) (log := log ++ traffic)
      as (log' & E' & Hs' & Hc').
    + intros j Hj. apply Hfail. lia.
    + intros _. apply Hsleep. lia.
    + exists log'. rewrite E'. split; [f_equal; lia|].
      rewrite Hs', Hc', !filter_app, Hs, Hc, <- !app_assoc. auto.
Qed.

(** X19.  When the sockets work, the first [n] attempts time out and attempt
    [n] gets a datagram -- all within the budget -- [wait_for_ready] returns
    true having sent [VERSION] to the client's host and port exactly
    [n + 1] times, once per attempt, and having closed [n + 1] sockets. *)
Theorem wait_for_ready_sends_version (n : nat) (data : list byte) :
  (forall k, k <= n ->
             within_budget w timeout_sec k = true /\ socket_works (net w k) self) ->
  (forall k, k < n ->
             exists e, recvfrom_outcome (net w k) = Raised e /\ is_Exception e = true) ->
  recvfrom_outcome (net w n) = Returned data ->
  (0 < n -> check_seconds (sleep_overflow w) poll_interval = None) ->
  exists log',
    wait_for_ready (S n) w self timeout_sec poll_interval [] = Some (Returned true, log')
    /\ filter is_sent log'
       = repeat (Sent version_payload (host self) (port self)) (S n)
    /\ filter is_closed log' = repeat Closed (S n).
Proof.
  intros Hworks Hquiet Hdata Hsleep.
  edestruct wait_loop_absent_trace
    with (m := n) (k := 0) (fuel := 1) (log := @nil event) as (log1 & E & Hs & Hc).
  - intros j Hj. destruct (Hworks j ltac:(lia)) as [H1 H2].
    split; [exact H1|split; [exact H2|apply Hquiet; lia]].
  - exact Hsleep.
  - destruct (Hworks n (Nat.le_refl n)) as [Hin Hw].
    destruct (poll_trace log1 Hw) as (traffic & E1 & Hs1 & Hc1).
    { intros e He. rewrite Hdata in He. discriminate. }
    exists (log1 ++ traffic). unfold wait_for_ready. cbv zeta.
    replace (S n) with (n + 1) by lia. rewrite E.
    cbn [wait_loop Nat.add]. unfold within_budget in Hin. rewrite Hin, E1, Hdata.
    split; [reflexivity|].
    rewrite !filter_app, Hs, Hc, Hs1, Hc1. cbn [filter app].
    rewrite !repeat_app. split; reflexivity.
Qed.
End WaitMore.

Lemma wait_for_ready_bad_interval_witness :
  exists log',
    wait_for_ready 1 late_server local_client 10%float (-1)%float []
    = Some (Raised ValueError, log').
Proof.
  exact (proj1 (@wait_for_ready_bad_interval late_server local_client
                  10%float (-1)%float ValueError 0 [] eq_refl eq_refl) eq_refl).
Defined.

Lemma wait_for_ready_poll_raises_witness :
  exists log',
    wait_for_ready 1 late_server negative_timeout_client 10%float 0.25%float []
    = Some (Raised ValueError, log').
Proof.
  refine (@wait_for_ready_poll_raises late_server negative_timeout_client
            10%float 0.25%float 0 ValueError [] _ _ eq_refl eq_refl 1 _).
  - intros k Hk. lia.
  - intros Hk. lia.
  - lia.
Defined.

Lemma wait_for_ready_sends_version_witness :
  exists log',
    wait_for_ready 2 late_server local_client 10%float 0.25%float []
    = Some (Returned true, log')
    /\ filter is_sent log'
       = repeat (Sent version_payload (lit "127.0.0.1") 55355%Z) 2
    /\ filter is_closed log' = repeat Closed 2.
Proof.
  refine (@wait_for_ready_sends_version late_server local_client
            10%float 0.25%float 1
            ["1"%byte; "."%byte; "9"%byte; x0a] _ _ eq_refl _).
  - intros k Hk.
    assert (Hk' : k = 0 \/ k = 1) by lia.
    destruct Hk' as [-> | ->]; (split; [reflexivity|repeat split]).
  - intros k Hk. assert (k = 0) by lia. subst k.
    exists socket_timeout. split; reflexivity.
  - reflexivity.
Defined.

(** * Arguments on the command line *)

Section ArgumentFacts.
Context {Arg : Type} (py_str : Arg -> str).

Lemma split_aux_space (s : str) :
  forall cur t,
    split_aux (s ++ SPACE :: t) cur = split_aux s cur ++ split_aux t [].
Proof.
  induction s as [|c s IH]; intros cur t.
  - cbn [app split_aux]. change (isspace SPACE) with true. cbv iota.
    now destruct cur.
  - cbn [app split_aux]. destruct (isspace c).
    + destruct cur; rewrite IH; reflexivity.
    + apply IH.
Qed.

(** Splitting a line joined with single spaces splits every item. *)
Lemma split_join_concat (items : list str) :
  str_split (str_join [SPACE] items) = concat (map str_split items).
Proof.
  induction items as [|t rest IH]; [reflexivity|].
  destruct rest as [|t' rest].
  - cbn [str_join map concat]. now rewrite app_nil_r.
  - change (str_join [SPACE] (t :: t' :: rest))
      with (t ++ SPACE :: str_join [SPACE] (t' :: rest)).
    unfold str_split at 1. rewrite split_aux_space.
    fold (str_split t). fold (str_split (str_join [SPACE] (t' :: rest))).
    now rewrite IH.
Qed.

Lemma split_clean (t : str) : clean_token t -> str_split t = [t].
Proof.
  intros H. rewrite <- (app_nil_r t) at 1.
  change t with (str_join [SPACE] [t]) at 1.
  apply split_join; [now constructor|reflexivity].
Qed.

(** The tokens of a line of [cmd]. *)
Lemma arguments_are_not_quoted_aux (args : list Arg) :
  forall command,
    str_split (cmd_message py_str command args)
    = lit (name command) :: concat (map (fun a => str_split (py_str a)) args).
Proof.
  intros command. rewrite cmd_message_join, split_join_concat.
  cbn [map concat]. rewrite (split_clean (name_clean command)), map_map.
  reflexivity.
Qed.

(** X20.  Arguments are written as they are, without quotes: splitting the
    line of [cmd] or [send_nci_command] gives the tokens of the name
    followed by the tokens of each argument's text.  So an argument with
    spaces arrives as several tokens, and an empty argument as none. *)
Theorem arguments_are_not_quoted (cmd_or_str : NCICommand + Arg) (args : list Arg) :
  str_split (send_nci_command_message py_str cmd_or_str args)
  = str_split (message_head py_str cmd_or_str)
      ++ concat (map (fun a => str_split (py_str a)) args)
  /\ forall command,
       str_split (cmd_message py_str command args)
       = lit (name command) :: concat (map (fun a => str_split (py_str a)) args).
Proof.
  split.
  - rewrite send_nci_command_message_join, split_join_concat.
    cbn [map concat]. now rewrite map_map.
  - apply arguments_are_not_quoted_aux.
Qed.
End ArgumentFacts.

(** * The catalog and the methods built on it *)

Section CatalogFacts.
Lemma str_eqb_eq (a b : str) : str_eqb a b = true <-> a = b.
Proof.
  unfold str_eqb. destruct (list_eq_dec N.eq_dec a b); split; congruence.
Qed.

Lemma lookup_name (command : NCICommand) :
  lookup_command (lit (name command)) = Some command.
Proof. destruct command; vm_compute; reflexivity. Qed.

Lemma lookup_sound (cmd_name : str) (command : NCICommand) :
  lookup_command cmd_name = Some command -> cmd_name = lit (name command).
Proof.
  unfold lookup_command. intros H. apply find_some in H as [_ H].
  apply str_eqb_eq in H. now symmetry.
Qed.

Lemma lookup_none (cmd_name : str) :
  lookup_command cmd_name = None ->
  forall command, cmd_name <> lit (name command).
Proof.
  intros H command ->. rewrite lookup_name in H. discriminate.
Qed.

Lemma name_upper (command : NCICommand) :
  map ascii_upper_char (lit (name command)) = lit (name command).
Proof. destruct command; vm_compute; reflexivity. Qed.

Lemma name_ascii (command : NCICommand) : is_ascii (lit (name command)) = true.
Proof. destruct command; vm_compute; reflexivity. Qed.

(** X21.  Looking a member up by its name finds it, and a lookup that
    succeeds was given the member's exact name; so different members have
    different names.  The catalog has 67 members, every member is listed,
    and every name is ASCII and in uppercase already. *)
Theorem catalog_lookup (command : NCICommand) :
  lookup_command (lit (name command)) = Some command
  /\ (forall cmd_name,
        lookup_command cmd_name = Some command -> cmd_name = lit (name command))
  /\ (forall other, name other = name command -> other = command)
  /\ In command all_commands
  /\ length all_commands = 67
  /\ map ascii_upper_char (lit (name command)) = lit (name command)
  /\ is_ascii (lit (name command)) = true.
Proof.
  split; [apply lookup_name|].
  split; [intros cmd_name; apply lookup_sound|].
  split.
  { intros other E. pose proof (lookup_name other) as H.
    rewrite E, lookup_name in H. now injection H. }
  split; [destruct command; vm_compute; tauto|].
  split; [reflexivity|].
  split; [apply name_upper|apply name_ascii].
Qed.

(** X22.  Every single-word helper sends its own name in uppercase: the
    method [m] of the table passes the member whose name is [m] in
    capitals, without arguments, and waits for the reply.  The helpers and
    the methods with parameters together reach every member of the
    catalog. *)
Theorem helper_sends_its_own_name (env : SocketEnv) (self : RetroArchNCI) :
  Forall (fun entry =>
            call_helper (fst entry) env self
            = Some (_send env self (map ascii_upper_char (lit (fst entry))) true)
            /\ lit (name (snd entry)) = map ascii_upper_char (lit (fst entry)))
    single_word_helpers
  /\ length single_word_helpers = 59
  /\ forall command,
       existsb (NCICommand_eqb command)
         (map snd single_word_helpers ++ parameterized_members) = true.
Proof.
  split; [|split; [reflexivity|intros command; destruct command; reflexivity]].
  unfold single_word_helpers.
  repeat (apply Forall_cons; [split; reflexivity|]). apply Forall_nil.
Qed.
End CatalogFacts.

Section ParameterizedFacts.
Variables (env : SocketEnv) (self : RetroArchNCI).

End ParameterizedFacts.


(** * The command-line shell *)

Section ShellFacts.
Context {uc : UnicodeCase}.

Lemma split_aux_nonempty (s : str) :
  forall cur, cur <> [] -> split_aux s cur <> [].
Proof.
  induction s as [|c s IH]; intros cur Hcur; simpl.
  - destruct cur; [contradiction|discriminate].
  - destruct (isspace c).
    + destruct cur; [contradiction|discriminate].
    + apply IH. discriminate.
Qed.

(** A line that is not blank has a first token. *)
Lemma split_nonblank (raw : str) : str_strip raw <> [] -> str_split raw <> [].
Proof.
  intros H. rewrite <- split_strip.
  pose proof (str_strip_starts_clean raw) as Hc.
  destruct (str_strip raw) as [|c t]; [contradiction|].
  simpl in Hc. apply negb_true_iff in Hc.
  unfold str_split. simpl. rewrite Hc. apply split_aux_nonempty. discriminate.
Qed.

Lemma no_space_rev (t : str) : no_space (rev t) = no_space t.
Proof.
  unfold no_space. apply eq_true_iff_eq. rewrite !forallb_forall.
  split; intros H c Hc; apply H; now apply in_rev in Hc || apply in_rev.
Qed.

Lemma split_aux_tokens (s : str) :
  forall cur, no_space cur = true -> Forall clean_token (split_aux s cur).
Proof.
  assert (Hrev : forall cur, cur <> [] -> no_space cur = true -> clean_token (rev cur)).
  { intros cur Hne Hs. split; [|now rewrite no_space_rev].
    intros E. apply Hne. rewrite <- (rev_involutive cur), E. reflexivity. }
  induction s as [|c s IH]; intros cur Hcur; simpl.
  - destruct cur as [|c0 cur]; constructor; [|constructor].
    apply Hrev; [discriminate|assumption].
  - destruct (isspace c) eqn:Ec.
    + destruct cur as [|c0 cur]; [now apply IH|].
      constructor; [apply Hrev; [discriminate|assumption]|now apply IH].
    + apply IH. simpl. now rewrite Ec.
Qed.

(** The tokens of a text are tokens. *)
Lemma split_tokens (s : str) : Forall clean_token (str_split s).
Proof. now apply split_aux_tokens. Qed.

Lemma split_aux_ascii (s : str) :
  forall cur, is_ascii s = true -> is_ascii cur = true ->
              Forall (fun t => is_ascii t = true) (split_aux s cur).
Proof.
  assert (Hrev : forall cur, is_ascii cur = true -> is_ascii (rev cur) = true).
  { unfold is_ascii. intros cur. rewrite !forallb_forall. intros H c Hc.
    apply H. now apply in_rev. }
  induction s as [|c s IH]; intros cur Hs Hcur; simpl.
  - destruct cur; constructor; [now apply Hrev|constructor].
  - simpl in Hs. apply andb_true_iff in Hs as [Hc Hs].
    destruct (isspace c).
    + destruct cur as [|c0 cur]; [now apply IH|].
      constructor; [now apply Hrev|now apply IH].
    + apply IH; [assumption|]. simpl. now rewrite Hc.
Qed.

Lemma upper_clean (t : str) : clean_token t -> clean_token (map ascii_upper_char t).
Proof.
  intros [Hne Hs]. split; [destruct t; [contradiction|discriminate]|].
  unfold no_space in *. rewrite forallb_forall in *. intros c Hc.
  apply in_map_iff in Hc as (c0 & <- & Hc0). rewrite up_isspace. now apply Hs.
Qed.

(** What a line that is not blank, not a way out and not a call for help
    makes of the client. *)
Lemma shell_line_dispatch (env : SocketEnv) (nci : RetroArchNCI) (raw : str)
    (log : list event) :
  str_strip raw <> [] ->
  is_quit (str_strip raw) = false ->
  is_help (str_strip raw) = false ->
  exists first args_list,
    str_split raw = first :: args_list
    /\ shell_line env nci raw log
       = shell_report
           (_send env nci (str_join [SPACE] (str_upper first :: args_list)) true log).
Proof.
  intros Hne Hq Hh. pose proof (split_nonblank _ Hne) as Hparts.
  destruct (str_split raw) as [|first args_list] eqn:Es; [contradiction|].
  exists first, args_list. split; [reflexivity|].
  unfold shell_line. cbv zeta. rewrite Hq, Hh, split_strip, Es.
  destruct (str_strip raw); [contradiction|]. f_equal.
  destruct (lookup_command (str_upper first)) as [cmd_enum|] eqn:El.
  - apply lookup_sound in El. unfold cmd.
    rewrite cmd_message_join, map_id, El. reflexivity.
  - unfold send_nci_command.
    rewrite send_nci_command_message_join, map_id. reflexivity.
Qed.

(** X24.  The catalog does not change what the shell sends.  For a line
    that is not blank, not [!exit] or [!quit] and not [help] or [?], the
    shell hands the client the first token in uppercase and the other
    tokens as typed, joined by single spaces -- through [cmd] when the
    catalog knows the name, through [send_nci_command] when it does not --
    and prints the response or the notice.  [parts[0]] always exists. *)
Theorem shell_sends_the_line (env : SocketEnv) (nci : RetroArchNCI) (raw : str)
    (log : list event) :
  str_strip raw <> [] ->
  is_quit (str_strip raw) = false ->
  is_help (str_strip raw) = false ->
  exists first args_list,
    str_split raw = first :: args_list
    /\ shell_line env nci raw log
       = shell_report
           (_send env nci (str_join [SPACE] (str_upper first :: args_list)) true log)
    /\ fst (shell_line env nci raw log) <> inl IndexError.
Proof.
  intros Hne Hq Hh.
  destruct (shell_line_dispatch env nci raw log Hne Hq Hh) as (first & args & Es & E).
  exists first, args. split; [exact Es|]. split; [exact E|].
  rewrite E. destruct (_send _ _ _ _ _) as [[[resp|]|e] log']; discriminate.
Qed.

(** X25.  For a line of ASCII text the server gets the tokens the user
    typed, the first in capitals: the line sent is ASCII, so it is always
    encoded, and splitting it gives these tokens back -- runs of whitespace
    between them are reduced to single spaces. *)
Theorem shell_ascii_line (env : SocketEnv) (nci : RetroArchNCI) (raw : str)
    (log : list event) :
  is_ascii raw = true ->
  str_strip raw <> [] ->
  is_quit (str_strip raw) = false ->
  is_help (str_strip raw) = false ->
  exists first args_list,
    str_split raw = first :: args_list
    /\ shell_line env nci raw log
       = shell_report
           (_send env nci
              (str_join [SPACE] (map ascii_upper_char first :: args_list)) true log)
    /\ is_ascii (str_join [SPACE] (map ascii_upper_char first :: args_list)) = true
    /\ str_split (str_join [SPACE] (map ascii_upper_char first :: args_list))
       = map ascii_upper_char first :: args_list.
Proof.
  intros Hascii Hne Hq Hh.
  destruct (shell_line_dispatch env nci raw log Hne Hq Hh) as (first & args & Es & E).
  exists first, args.
  pose proof (split_tokens raw) as Htok. rewrite Es in Htok.
  pose proof (split_aux_ascii raw [] Hascii eq_refl) as Hasc.
  fold (str_split raw) in Hasc. rewrite Es in Hasc.
  inversion Htok as [|? ? Hfirst Hargs]; subst.
  inversion Hasc as [|? ? Hfa Haa]; subst.
  assert (Hup : str_upper first = map ascii_upper_char first)
    by (unfold str_upper; now rewrite Hfa).
  rewrite Hup in E.
  split; [exact Es|]. split; [exact E|]. split.
  - change [SPACE] with (lit " "). apply join_ascii. cbn [forallb].
    change (is_ascii (map ascii_upper_char first))
      with (forallb (fun c => (c <? 128)%N) (map ascii_upper_char first)).
    rewrite up_forallb_ascii. fold (is_ascii first). rewrite Hfa.
    apply forallb_forall. intros t Ht. rewrite Forall_forall in Haa. now apply Haa.
  - rewrite <- (app_nil_r (str_join _ _)). apply split_join; [|reflexivity].
    constructor; [now apply upper_clean|assumption].
Qed.

(** X26.  Blank lines, the two ways out and the two calls for help stay in
    the shell: no socket call is made.  A blank line prints nothing,
    [help] prints the heading and the 67 names, and the loop stops only
    on a line that reads [!exit] or [!quit] once stripped and lowered;
    no other line ends it without an error. *)
Theorem shell_local_lines (env : SocketEnv) (nci : RetroArchNCI) (raw : str)
    (log : list event) :
  (str_strip raw = [] ->
   shell_line env nci raw log = (inr {| keep_going := true; printed := [] |}, log))
  /\ (str_strip raw <> [] -> is_quit (str_strip raw) = true ->
      shell_line env nci raw log = (inr {| keep_going := false; printed := [] |}, log))
  /\ (str_strip raw <> [] -> is_quit (str_strip raw) = false ->
      is_help (str_strip raw) = true ->
      shell_line env nci raw log
      = (inr {| keep_going := true; printed := list_commands |}, log))
  /\ (forall step,
        fst (shell_line env nci raw log) = inr step -> keep_going step = false ->
        str_strip raw <> [] /\ is_quit (str_strip raw) = true)
  /\ length list_commands = 68.
Proof.
  split; [|split; [|split; [|split; [|reflexivity]]]].
  - intros E. unfold shell_line. now rewrite E.
  - intros Hne Hq. unfold shell_line. cbv zeta. rewrite Hq.
    destruct (str_strip raw); [contradiction|reflexivity].
  - intros Hne Hq Hh. unfold shell_line. cbv zeta. rewrite Hq, Hh.
    destruct (str_strip raw); [contradiction|reflexivity].
  - intros step Hstep Hstop.
    destruct (str_strip raw) as [|c t] eqn:Es.
    + unfold shell_line in Hstep. rewrite Es in Hstep. cbn in Hstep.
      injection Hstep as <-. discriminate.
    + split; [discriminate|].
      destruct (is_quit (c :: t)) eqn:Hq; [reflexivity|].
      destruct (is_help (c :: t)) eqn:Hh.
      * unfold shell_line in Hstep. cbv zeta in Hstep.
        rewrite Es, Hq, Hh in Hstep. cbn in Hstep. injection Hstep as <-.
        discriminate.
      * assert (Hne : str_strip raw <> []) by (rewrite Es; discriminate).
        rewrite <- Es in Hq, Hh.
        destruct (shell_line_dispatch env nci raw log Hne Hq Hh)
          as (first & args & _ & E).
        rewrite E in Hstep.
        destruct (_send _ _ _ _ _) as [[[resp|]|e] log']; cbn in Hstep;
          try discriminate; injection Hstep as <-; discriminate.
Qed.

(** X27.  The shell does not catch what the client raises: when the line at
    hand is sent and [_send] raises, the loop ends there with that
    exception -- the lines after it are not read and no farewell is
    printed. *)
Theorem shell_ends_on_client_exception (w : World) (nci : RetroArchNCI)
    (raw : str) (rest : list str) (i : nat) (out : list str) (log : list event)
    (first : str) (args_list : list str) (e : exn) :
  str_strip raw <> [] ->
  is_quit (str_strip raw) = false ->
  is_help (str_strip raw) = false ->
  str_split raw = first :: args_list ->
  fst (_send (net w i) nci (str_join [SPACE] (str_upper first :: args_list)) true log)
  = Raised e ->
  exists log',
    shell_loop w nci (raw :: rest) i out log = (Some (ClientError e), out, log').
Proof.
  intros Hne Hq Hh Es Hraise.
  destruct (shell_line_dispatch (net w i) nci raw log Hne Hq Hh)
    as (first' & args' & Es' & E).
  rewrite Es in Es'. injection Es' as <- <-.
  cbn [shell_loop]. rewrite E.
  destruct (_send _ _ _ _ _) as [o log']. cbn [fst] in Hraise. subst o.
  now exists log'.
Qed.

Ltac run :=
  unfold _send, socket_socket, sock_settimeout, sock_sendto, sock_recvfrom,
    sock_close, try_finally, try_except, bind, may_raise, emit, lift, ret, raise.

(** [_send] extends the log, by one datagram out at most. *)
Lemma _send_adds (env : SocketEnv) (self : RetroArchNCI) (msg : str)
    (expect_response : bool) (log : list event) :
  exists added,
    snd (_send env self msg expect_response log) = log ++ added
    /\ length (filter is_sent added) <= 1.
Proof.
  run.
  destruct (socket_outcome env);
    [exists []; cbn; split; [now rewrite app_nil_r|lia]|].
  destruct (check_seconds _ _); [exists [Opened]; cbn; split; [reflexivity|lia]|].
  destruct (str_encode_ascii msg) as [payload|e]; cbn [fst snd].
  - destruct (sendto_outcome env) as [e|].
    + destruct (is_socket_timeout e), (is_Exception e), (close_outcome env);
        cbn [fst snd]; rewrite <- ?app_assoc; eexists; (split; [reflexivity|]);
        cbn; lia.
    + destruct expect_response; cbn [negb].
      * destruct (recvfrom_outcome env) as [data|e].
        -- destruct (close_outcome env);
             cbn [fst snd]; rewrite <- ?app_assoc; eexists;
             (split; [reflexivity|]); cbn; lia.
        -- destruct (is_socket_timeout e), (is_Exception e), (close_outcome env);
             cbn [fst snd]; rewrite <- ?app_assoc; eexists;
             (split; [reflexivity|]); cbn; lia.
      * destruct (close_outcome env);
          cbn [fst snd]; rewrite <- ?app_assoc; eexists;
          (split; [reflexivity|]); cbn; lia.
  - destruct (is_socket_timeout e), (is_Exception e), (close_outcome env);
      cbn [fst snd]; rewrite <- ?app_assoc; eexists; (split; [reflexivity|]);
      cbn; lia.
Qed.

Lemma shell_report_log (result : outcome (option str) * list event) :
  snd (shell_report result) = snd result.
Proof. destruct result as [[[resp|]|e] log]; reflexivity. Qed.

Lemma shell_line_adds (env : SocketEnv) (nci : RetroArchNCI) (raw : str)
    (log : list event) :
  exists added,
    snd (shell_line env nci raw log) = log ++ added
    /\ length (filter is_sent added) <= 1.
Proof.
  assert (Hnone : exists added, log = log ++ added /\ length (filter is_sent added) <= 1).
  { exists []. rewrite app_nil_r. cbn. split; [reflexivity|lia]. }
  destruct (str_strip raw) as [|c t] eqn:Es.
  - unfold shell_line. rewrite Es. exact Hnone.
  - destruct (is_quit (c :: t)) eqn:Hq;
      [unfold shell_line; cbv zeta; rewrite Es, Hq; exact Hnone|].
    destruct (is_help (c :: t)) eqn:Hh;
      [unfold shell_line; cbv zeta; rewrite Es, Hq, Hh; exact Hnone|].
    assert (Hne : str_strip raw <> []) by (rewrite Es; discriminate).
    rewrite <- Es in Hq, Hh.
    destruct (shell_line_dispatch env nci raw log Hne Hq Hh) as (first & args & _ & E).
    rewrite E, shell_report_log. apply _send_adds.
Qed.

(** X28.  The shell makes at most one exchange per line read: whatever the
    lines and the sockets, the log grows by at most as many datagrams out
    as there are lines. *)
Theorem shell_one_datagram_per_line (w : World) (nci : RetroArchNCI)
    (inputs : list str) (i : nat) (out : list str) (log : list event) :
  (exists added,
     snd (shell_loop w nci inputs i out log) = log ++ added
     /\ length (filter is_sent added) <= length inputs)
  /\ length (filter is_sent (snd (main w (host nci) (port nci) inputs)))
     <= length inputs.
Proof.
  assert (H : forall nci i out log,
             exists added,
               snd (shell_loop w nci inputs i out log) = log ++ added
               /\ length (filter is_sent added) <= length inputs);
    [|split; [apply H|unfold main; cbv zeta;
              edestruct H as (added & E & Hn); rewrite E; exact Hn]].
  clear. intros nci.
  induction inputs as [|raw rest IH]; intros i out log.
  - exists []. cbn. split; [now rewrite app_nil_r|lia].
  - cbn [shell_loop length].
    destruct (shell_line_adds (net w i) nci raw log) as (added & E & Hn).
    destruct (shell_line (net w i) nci raw log) as [[err|step] log'].
    + cbn [snd] in *. exists added. split; [exact E|lia].
    + cbn [snd] in E. subst log'. destruct (keep_going step).
      * destruct (IH (S i) (out ++ printed step) (log ++ added))
          as (added' & E' & Hn').
        exists (added ++ added'). rewrite E', app_assoc. split; [reflexivity|].
        rewrite filter_app, length_app. lia.
      * cbn [snd]. exists added. split; [reflexivity|lia].
Qed.
End ShellFacts.

(** Typing [exit] does not leave the shell: the word goes to the server. *)
Lemma shell_sends_the_line_witness :
  @shell_line ascii_case_only quiet_server local_client (lit "exit") []
  = shell_report (_send quiet_server local_client (lit "EXIT") true []).
Proof.
  destruct (@shell_sends_the_line ascii_case_only quiet_server local_client
              (lit "exit") [] ltac:(discriminate) eq_refl eq_refl)
    as (first & args & Es & E & _).
  injection Es as <- <-. exact E.
Defined.

Lemma shell_ascii_line_witness :
  exists first args_list,
    str_split (lit "  show_mesg   hi  there ") = first :: args_list
    /\ str_split (str_join [SPACE] (map ascii_upper_char first :: args_list))
       = map ascii_upper_char first :: args_list.
Proof.
  destruct (@shell_ascii_line ascii_case_only quiet_server local_client
              (lit "  show_mesg   hi  there ") []
              eq_refl ltac:(discriminate) eq_refl eq_refl)
    as (first & args & Es & _ & _ & Hs).
  exists first, args. exact (conj Es Hs).
Defined.

Lemma shell_local_lines_witness :
  @shell_line ascii_case_only quiet_server local_client (lit " !QUIT ") []
  = (inr {| keep_going := false; printed := [] |}, []).
Proof.
  exact (proj1 (proj2 (@shell_local_lines ascii_case_only quiet_server local_client
                         (lit " !QUIT ") []))
           ltac:(discriminate) eq_refl).
Defined.

Lemma shell_ends_on_client_exception_witness :
  exists log',
    @shell_loop ascii_case_only late_server negative_timeout_client
      [lit "version"; lit "help"] 0 [] []
    = (Some (ClientError ValueError), [], log').
Proof.
  exact (@shell_ends_on_client_exception ascii_case_only late_server
           negative_timeout_client (lit "version") [lit "help"] 0 [] []
           (lit "version") [] ValueError
           ltac:(discriminate) eq_refl eq_refl eq_refl eq_refl).
Defined.
